(** * blazer/b2: the Writer (writer.go)

    A shallow embedding of [b2.Writer]: the foreground path ([Write],
    [sendChunk], [simpleWriteFile], [Close]), the error cell
    ([setErr]/[getErr]) and the upload goroutines started by [thread], as an
    interleaving transition system.

    Every transition performs at most one access to state that another
    goroutine can see (the error cell, the context, the [ready] channel, the
    wait group, the counter [gid]) or one call into the backend, together
    with the goroutine-local code around it.  A program point is named after
    the source line of the access it is about to perform.

    Conventions.  Go's [int] is 64 bits wide; the [int] values here are
    lengths of in-memory byte slices, sums of such lengths and the chunk
    counter, and are kept as [Z].  [gid] is an [int32] and wraps.  Logging
    ([glog]) has no effect on the Writer and is left out. *)

From Stdlib.Strings Require Import String Byte.
From Stdlib Require Import ZArith Lia Bool Permutation List.
Import ListNotations.
Local Open Scope Z_scope.

(** ** Data *)

(** A Go [error] value; [nil] is [None] of [option error]. *)
Definition error := string.

(** [context.Canceled]. *)
Definition Canceled : error := "context canceled"%string.

(** Handles handed out by the backend: a large file, an upload URL (the
    lease of one upload), a finished file. *)
Definition handle := nat.

(** [bytes.Reader]: the slice it reads from and the read offset. *)
Record Reader := { rd_data : list byte; rd_off : nat }.

(** [bytes.NewReader(b)]. *)
Definition NewReader (b : list byte) : Reader := {| rd_data := b; rd_off := 0 |}.

(** [r.Size()]: the length of the underlying slice, whatever has been read. *)
Definition rd_Size (r : Reader) : Z := Z.of_nat (length (rd_data r)).

(** What a read of the reader still yields. *)
Definition rd_rest (r : Reader) : list byte := skipn (rd_off r) (rd_data r).

(** The reader after a callee has read [k] bytes from it (fewer at the end
    of the slice). *)
Definition rd_advance (k : nat) (r : Reader) : Reader :=
  {| rd_data := rd_data r;
     rd_off := Nat.min (rd_off r + k) (length (rd_data r)) |}.

(** writer.go:31 *)
Record chunk := { id : Z; size : Z; sha1 : string; buf : list byte }.

(** A channel of chunks: the [nil] channel of the zero Writer, the
    unbuffered channel of [make(chan chunk)], and that channel closed. *)
Inductive chan := ChNil | ChOpen | ChClosed.

(** What lies outside the repository and is pure: the hex form of the SHA-1
    sum ([fmt.Sprintf("%x", h.Sum(nil))] of a hash that absorbed the given
    bytes) and the retry policy [w.o.b.r.reupload]. *)
Record Extern := {
  sha1_hex : list byte -> string;
  reupload : option error -> bool
}.

(** writer.go:41.  [ctx] is kept as the value of [ctx.Err()] ([None] until
    the context is done) and [cancel] as the number of times the
    [CancelFunc] has been invoked; [chsh] as the bytes the hash has absorbed
    since [sha1.New()]; [w] is the [io.MultiWriter] over [chsh] and [cbuf]
    (see [w_Write]); [emux] is the lock that makes [setErr] and [getErr]
    atomic; [o_f] is [w.o.f]. *)
Record Writer := {
  ConcurrentUploads : Z;
  ContentType : string;
  Info : list (string * string);
  csize : Z;
  ctx : option error;
  cancel : nat;
  ready : chan;
  wg : Z;
  once : bool;
  done : bool;
  file : option handle;
  o_f : option handle;
  name : string;
  cbuf : list byte;
  cidx : Z;
  chsh : list byte;
  err : option error
}.

Definition set_ConcurrentUploads (v : Z) (x : Writer) : Writer :=
  {| ConcurrentUploads := v; ContentType := ContentType x; Info := Info x;
     csize := csize x; ctx := ctx x; cancel := cancel x; ready := ready x;
     wg := wg x; once := once x; done := done x; file := file x;
     o_f := o_f x; name := name x; cbuf := cbuf x; cidx := cidx x;
     chsh := chsh x; err := err x |}.

Definition set_csize (v : Z) (x : Writer) : Writer :=
  {| ConcurrentUploads := ConcurrentUploads x; ContentType := ContentType x;
     Info := Info x; csize := v; ctx := ctx x; cancel := cancel x;
     ready := ready x; wg := wg x; once := once x; done := done x;
     file := file x; o_f := o_f x; name := name x; cbuf := cbuf x;
     cidx := cidx x; chsh := chsh x; err := err x |}.

Definition set_ctx (v : option error) (x : Writer) : Writer :=
  {| ConcurrentUploads := ConcurrentUploads x; ContentType := ContentType x;
     Info := Info x; csize := csize x; ctx := v; cancel := cancel x;
     ready := ready x; wg := wg x; once := once x; done := done x;
     file := file x; o_f := o_f x; name := name x; cbuf := cbuf x;
     cidx := cidx x; chsh := chsh x; err := err x |}.

Definition set_cancel (v : nat) (x : Writer) : Writer :=
  {| ConcurrentUploads := ConcurrentUploads x; ContentType := ContentType x;
     Info := Info x; csize := csize x; ctx := ctx x; cancel := v;
     ready := ready x; wg := wg x; once := once x; done := done x;
     file := file x; o_f := o_f x; name := name x; cbuf := cbuf x;
     cidx := cidx x; chsh := chsh x; err := err x |}.

Definition set_ready (v : chan) (x : Writer) : Writer :=
  {| ConcurrentUploads := ConcurrentUploads x; ContentType := ContentType x;
     Info := Info x; csize := csize x; ctx := ctx x; cancel := cancel x;
     ready := v; wg := wg x; once := once x; done := done x; file := file x;
     o_f := o_f x; name := name x; cbuf := cbuf x; cidx := cidx x;
     chsh := chsh x; err := err x |}.

Definition set_wg (v : Z) (x : Writer) : Writer :=
  {| ConcurrentUploads := ConcurrentUploads x; ContentType := ContentType x;
     Info := Info x; csize := csize x; ctx := ctx x; cancel := cancel x;
     ready := ready x; wg := v; once := once x; done := done x;
     file := file x; o_f := o_f x; name := name x; cbuf := cbuf x;
     cidx := cidx x; chsh := chsh x; err := err x |}.

Definition set_once (v : bool) (x : Writer) : Writer :=
  {| ConcurrentUploads := ConcurrentUploads x; ContentType := ContentType x;
     Info := Info x; csize := csize x; ctx := ctx x; cancel := cancel x;
     ready := ready x; wg := wg x; once := v; done := done x; file := file x;
     o_f := o_f x; name := name x; cbuf := cbuf x; cidx := cidx x;
     chsh := chsh x; err := err x |}.

Definition set_done (v : bool) (x : Writer) : Writer :=
  {| ConcurrentUploads := ConcurrentUploads x; ContentType := ContentType x;
     Info := Info x; csize := csize x; ctx := ctx x; cancel := cancel x;
     ready := ready x; wg := wg x; once := once x; done := v; file := file x;
     o_f := o_f x; name := name x; cbuf := cbuf x; cidx := cidx x;
     chsh := chsh x; err := err x |}.

Definition set_file (v : option handle) (x : Writer) : Writer :=
  {| ConcurrentUploads := ConcurrentUploads x; ContentType := ContentType x;
     Info := Info x; csize := csize x; ctx := ctx x; cancel := cancel x;
     ready := ready x; wg := wg x; once := once x; done := done x; file := v;
     o_f := o_f x; name := name x; cbuf := cbuf x; cidx := cidx x;
     chsh := chsh x; err := err x |}.

Definition set_o_f (v : option handle) (x : Writer) : Writer :=
  {| ConcurrentUploads := ConcurrentUploads x; ContentType := ContentType x;
     Info := Info x; csize := csize x; ctx := ctx x; cancel := cancel x;
     ready := ready x; wg := wg x; once := once x; done := done x;
     file := file x; o_f := v; name := name x; cbuf := cbuf x;
     cidx := cidx x; chsh := chsh x; err := err x |}.

Definition set_cbuf (v : list byte) (x : Writer) : Writer :=
  {| ConcurrentUploads := ConcurrentUploads x; ContentType := ContentType x;
     Info := Info x; csize := csize x; ctx := ctx x; cancel := cancel x;
     ready := ready x; wg := wg x; once := once x; done := done x;
     file := file x; o_f := o_f x; name := name x; cbuf := v;
     cidx := cidx x; chsh := chsh x; err := err x |}.

Definition set_cidx (v : Z) (x : Writer) : Writer :=
  {| ConcurrentUploads := ConcurrentUploads x; ContentType := ContentType x;
     Info := Info x; csize := csize x; ctx := ctx x; cancel := cancel x;
     ready := ready x; wg := wg x; once := once x; done := done x;
     file := file x; o_f := o_f x; name := name x; cbuf := cbuf x;
     cidx := v; chsh := chsh x; err := err x |}.

Definition set_chsh (v : list byte) (x : Writer) : Writer :=
  {| ConcurrentUploads := ConcurrentUploads x; ContentType := ContentType x;
     Info := Info x; csize := csize x; ctx := ctx x; cancel := cancel x;
     ready := ready x; wg := wg x; once := once x; done := done x;
     file := file x; o_f := o_f x; name := name x; cbuf := cbuf x;
     cidx := cidx x; chsh := v; err := err x |}.

Definition set_err (v : option error) (x : Writer) : Writer :=
  {| ConcurrentUploads := ConcurrentUploads x; ContentType := ContentType x;
     Info := Info x; csize := csize x; ctx := ctx x; cancel := cancel x;
     ready := ready x; wg := wg x; once := once x; done := done x;
     file := file x; o_f := o_f x; name := name x; cbuf := cbuf x;
     cidx := cidx x; chsh := chsh x; err := v |}.

(** Modelled from the spec: the constructor of the Writer ([NewWriter]) is
    not in writer.go.  A new session holds an empty active buffer, a fresh
    digest accumulator, no flushed chunk and no error; its cancellation
    token has not fired.  [cu], [ct], [inf] are the exported options, [cs]
    the chunk-size threshold ([0]: the default of 1e8 bytes is installed by
    the first [Write]) and [nm] the object's name. *)
Definition NewWriter (cu : Z) (ct : string) (inf : list (string * string))
    (cs : Z) (nm : string) : Writer :=
  {| ConcurrentUploads := cu; ContentType := ct; Info := inf; csize := cs;
     ctx := None; cancel := 0%nat; ready := ChNil; wg := 0; once := false;
     done := false; file := None; o_f := None; name := nm; cbuf := [];
     cidx := 0; chsh := []; err := None |}.

(** ** The error cell (writer.go:76-93) *)

(** Modelled from the spec: [w.cancel] is the [CancelFunc] of [w.ctx], made
    by the constructor that is not in writer.go.  Invoking it fires the
    session's cancellation token: a context that is not yet done becomes
    done with [context.Canceled]; a later invocation changes nothing but is
    counted. *)
Definition do_cancel (x : Writer) : Writer :=
  set_cancel (S (cancel x))
    (match ctx x with
     | None => set_ctx (Some Canceled) x
     | Some _ => x
     end).

(** writer.go:76 *)
Definition setErr (e : option error) (x : Writer) : Writer :=
  match e with
  | None => x
  | Some e' =>
      match err x with
      | None => do_cancel (set_err (Some e') x)
      | Some _ => x
      end
  end.

(** writer.go:89 *)
Definition getErr (x : Writer) : option error := err x.

(** ** The foreground path and the upload goroutines *)

(** [w.w.Write(p)] (writer.go:145, 147): the [io.MultiWriter] hands [p] to
    the hash and then to the buffer; neither ever fails, so the result is
    [len(p), nil]. *)
Definition w_Write (p : list byte) (x : Writer) : Writer * Z * option error :=
  (set_cbuf (cbuf x ++ p) (set_chsh (chsh x ++ p) x),
   Z.of_nat (length p), None).

(** The content type sent to the backend (writer.go:169-172, 195-198). *)
Definition ctype_of (x : Writer) : string :=
  if String.eqb (ContentType x) "" then "application/octet-stream"%string
  else ContentType x.

(** The chunk offered on [w.ready] (writer.go:217-222). *)
Definition next_chunk (X : Extern) (x : Writer) : chunk :=
  {| id := cidx x + 1;
     size := Z.of_nat (length (cbuf x));
     sha1 := sha1_hex X (chsh x);
     buf := cbuf x |}.

(** After the chunk has been taken (writer.go:226-229). *)
Definition after_send (x : Writer) : Writer :=
  set_cbuf [] (set_chsh [] (set_cidx (cidx x + 1) x)).

(** [atomic.AddInt32]: the sum wraps to the 32-bit signed range. *)
Definition wrap32 (z : Z) : Z := (z + 2 ^ 31) mod 2 ^ 32 - 2 ^ 31.

(** What a caller of the Writer does, and what it gets back. *)
Inductive call := CWrite (p : list byte) | CClose.
Inductive ret := RetWrite (n : Z) (e : option error) | RetClose (e : option error).

(** Who called [sendChunk]: [Write] at line 152, with its local [i], the
    rest [p[left:]] of its argument and the [i]s of the enclosing
    activations of [Write]; or [Close] at line 242. *)
Inductive kont := KWrite (i : Z) (rest : list byte) (stk : list Z) | KClose.

(** Program points of the foreground goroutine.  [Write] calls itself at
    line 156: [stk] lists the local [i] of each activation that awaits such
    a call, innermost first. *)
Inductive fg_pc :=
| Idle
| Write_137 (p : list byte) (stk : list Z)
| Write_149 (e : error) (i : Z) (stk : list Z)
| Write_153 (e : error) (i : Z) (stk : list Z)
| Write_154 (i : Z) (stk : list Z)
| Write_158 (i k : Z) (e : error) (stk : list Z)
| sendChunk_199 (k : kont)
| sendChunk_216 (k : kont)
| simple_164
| simple_175 (ue : handle) (r : Reader) (sha : string) (ctype : string)
| simple_179 (r : Reader) (sha : string) (ctype : string)
| Close_setErr (e : error)
| Close_247
| Close_248
| Close_249
| Close_256
| Panicked.

(** Program points of an upload goroutine (writer.go:98-132).  From
    [thread_108] on the deferred [w.wg.Done()] is registered; it runs at
    [thread_Done]. *)
Inductive worker_pc :=
| thread_99
| thread_100
| thread_102 (e : error)
| thread_105 (fc : handle)
| thread_108 (fc : handle)
| thread_115 (fc : handle) (c : chunk) (r : Reader)
| thread_119 (c : chunk) (r : Reader)
| thread_setErr (e : option error)
| thread_Done
| thread_exited.

(** What the world outside the Writer answers at a transition: nothing; an
    error; a handle; for [uploadPart] the number of bytes read from the
    reader and the results [n, err]; for [uploadFile] the number of bytes
    read and the file or the error; [RClosed] picks, in the [select] of
    line 216, the send on a closed channel. *)
Inductive response :=
| RNone
| RErr (e : error)
| ROk (h : handle)
| RPart (consumed : nat) (n : Z) (e : option error)
| RFile (consumed : nat) (res : handle + error)
| RClosed.

(** One transition: of the foreground goroutine; the rendezvous on
    [w.ready] between the foreground's send and the receive of worker [j];
    of worker [j]; the context ending from outside ([w.ctx] may descend from
    a context of the caller). *)
Inductive label :=
| LFg (r : response)
| LSend (j : nat)
| LWorker (j : nat) (r : response)
| LCtx (e : error).

(** Calls into the backend with their arguments and answers, and chunks
    handed over, in the order they happen. *)
Inductive event :=
| EvStartLargeFile (nm ctype : string) (inf : list (string * string))
    (res : handle + error)
| EvGetUploadPartURL (j : nat) (res : handle + error)
| EvUploadPart (j : nat) (fc : handle) (r : Reader) (sha : string)
    (sz pid : Z) (consumed : nat) (n : Z) (e : option error)
| EvGetUploadURL (res : handle + error)
| EvUploadFile (ue : handle) (r : Reader) (sz : Z) (nm ctype sha : string)
    (inf : list (string * string)) (consumed : nat) (res : handle + error)
| EvFinishLargeFile (res : handle + error)
| EvSend (c : chunk) (j : nat).

Record state := {
  wr : Writer;
  gid : Z;
  fg : fg_pc;
  calls : list call;
  rets : list ret;
  workers : list worker_pc;
  trace : list event
}.

Definition set_wr (v : Writer) (s : state) : state :=
  {| wr := v; gid := gid s; fg := fg s; calls := calls s; rets := rets s;
     workers := workers s; trace := trace s |}.

Definition set_gid (v : Z) (s : state) : state :=
  {| wr := wr s; gid := v; fg := fg s; calls := calls s; rets := rets s;
     workers := workers s; trace := trace s |}.

Definition set_fg (v : fg_pc) (s : state) : state :=
  {| wr := wr s; gid := gid s; fg := v; calls := calls s; rets := rets s;
     workers := workers s; trace := trace s |}.

Definition set_calls (v : list call) (s : state) : state :=
  {| wr := wr s; gid := gid s; fg := fg s; calls := v; rets := rets s;
     workers := workers s; trace := trace s |}.

Definition set_workers (v : list worker_pc) (s : state) : state :=
  {| wr := wr s; gid := gid s; fg := fg s; calls := calls s; rets := rets s;
     workers := v; trace := trace s |}.

(** The call in progress returns [r] to the caller. *)
Definition give (r : ret) (s : state) : state :=
  {| wr := wr s; gid := gid s; fg := Idle; calls := calls s;
     rets := rets s ++ [r]; workers := workers s; trace := trace s |}.

Definition log (e : event) (s : state) : state :=
  {| wr := wr s; gid := gid s; fg := fg s; calls := calls s; rets := rets s;
     workers := workers s; trace := trace s ++ [e] |}.

(** Worker [j] moves to [p]. *)
Fixpoint upd (j : nat) (p : worker_pc) (l : list worker_pc) : list worker_pc :=
  match l, j with
  | [], _ => []
  | _ :: t, O => p :: t
  | h :: t, S j' => h :: upd j' p t
  end.

Definition set_worker (j : nat) (p : worker_pc) (s : state) : state :=
  set_workers (upd j p (workers s)) s.

(** An activation of [Write] returns [k, e] (writer.go:138, 145, 150, 154,
    160).  An enclosing activation that gets a [nil] error returns
    [i + k, nil] in turn (lines 156-160); one that gets an error is at the
    [setErr] of line 158. *)
Fixpoint Write_return (stk : list Z) (k : Z) (e : option error) (s : state)
    : state :=
  match stk with
  | [] => give (RetWrite k e) s
  | i :: stk' =>
      match e with
      | None => Write_return stk' (i + k) None s
      | Some e' => set_fg (Write_158 i k e' stk') s
      end
  end.

(** [sendChunk] is entered (writer.go:192-194): [w.once.Do] runs its
    function the first time only. *)
Definition enter_sendChunk (k : kont) (s : state) : state :=
  if once (wr s) then set_fg (sendChunk_216 k) s
  else set_fg (sendChunk_199 k) (set_wr (set_once true (wr s)) s).

(** [sendChunk] returns the error [e] to its caller (writer.go:152-153,
    242-243). *)
Definition sendChunk_fails (k : kont) (e : error) (s : state) : state :=
  match k with
  | KWrite i _ stk => set_fg (Write_153 e i stk) s
  | KClose => set_fg (Close_setErr e) s
  end.

(** [sendChunk] returns [nil] to its caller: [Write] goes on with the call
    of line 156, [Close] with line 247. *)
Definition sendChunk_done (k : kont) (s : state) : state :=
  match k with
  | KWrite i rest stk => set_fg (Write_137 rest (i :: stk)) s
  | KClose => set_fg Close_247 s
  end.

(** The goroutines started by the loop of writer.go:209-211. *)
Definition spawn (n : Z) (s : state) : state :=
  set_workers (workers s ++ repeat thread_99 (Z.to_nat n)) s.

(** [Write], from its entry to the call of [sendChunk] (writer.go:137-152). *)
Definition Write_enter (p : list byte) (stk : list Z) (s : state) : state :=
  match getErr (wr s) with
  | Some e => Write_return stk 0 (Some e) s
  | None =>
      let x := if csize (wr s) =? 0 then set_csize 100000000 (wr s)
               else wr s in
      let left := csize x - Z.of_nat (length (cbuf x)) in
      if Z.of_nat (length p) <? left then
        let '(x', n, e) := w_Write p x in
        Write_return stk n e (set_wr x' s)
      else if left <? 0 then set_fg Panicked (set_wr x s)
      else
        let '(x', i, e) := w_Write (firstn (Z.to_nat left) p) x in
        match e with
        | Some e' => set_fg (Write_149 e' i stk) (set_wr x' s)
        | None =>
            enter_sendChunk (KWrite i (skipn (Z.to_nat left) p) stk)
              (set_wr x' s)
        end
  end.

(** [Close], from its entry to its first access (writer.go:236-247). *)
Definition Close_enter (s : state) : state :=
  if done (wr s) then set_fg Close_256 s
  else
    let s := set_wr (set_done true (wr s)) s in
    if cidx (wr s) =? 0 then set_fg simple_164 s
    else if 0 <? Z.of_nat (length (cbuf (wr s))) then enter_sendChunk KClose s
    else set_fg Close_247 s.

(** A transition of the foreground goroutine. *)
Definition fg_step (X : Extern) (r : response) (s : state) : option state :=
  let x := wr s in
  match fg s, r with
  | Idle, RNone =>
      match calls s with
      | [] => None
      | CWrite p :: cs => Some (set_fg (Write_137 p []) (set_calls cs s))
      | CClose :: cs => Some (Close_enter (set_calls cs s))
      end
  | Write_137 p stk, RNone => Some (Write_enter p stk s)
  | Write_149 e i stk, RNone =>
      Some (Write_return stk i (Some e) (set_wr (setErr (Some e) x) s))
  | Write_153 e i stk, RNone =>
      Some (set_fg (Write_154 i stk) (set_wr (setErr (Some e) x) s))
  | Write_154 i stk, RNone => Some (Write_return stk i (getErr x) s)
  | Write_158 i k e stk, RNone =>
      Some (Write_return stk (i + k) (Some e)
              (set_wr (setErr (Some e) x) s))
  | sendChunk_199 k, RErr e =>
      Some (sendChunk_fails k e
              (log (EvStartLargeFile (name x) (ctype_of x) (Info x) (inr e)) s))
  | sendChunk_199 k, ROk lf =>
      let s := log (EvStartLargeFile (name x) (ctype_of x) (Info x) (inl lf)) s in
      let x := set_ready ChOpen (set_file (Some lf) x) in
      let x := if ConcurrentUploads x <? 1 then set_ConcurrentUploads 1 x
               else x in
      Some (set_fg (sendChunk_216 k)
              (spawn (ConcurrentUploads x) (set_wr x s)))
  | sendChunk_216 k, RNone =>
      match ctx x with
      | Some e => Some (sendChunk_fails k e s)
      | None => None
      end
  | sendChunk_216 k, RClosed =>
      match ready x with
      | ChClosed => Some (set_fg Panicked s)
      | _ => None
      end
  | simple_164, RErr e =>
      Some (set_fg (Close_setErr e) (log (EvGetUploadURL (inr e)) s))
  | simple_164, ROk ue =>
      Some (set_fg (simple_175 ue (NewReader (cbuf x)) (sha1_hex X (chsh x))
                      (ctype_of x))
              (log (EvGetUploadURL (inl ue)) s))
  | simple_175 ue rd sha ct, RFile consumed res =>
      let s := log (EvUploadFile ue rd (rd_Size rd) (name x) ct sha (Info x)
                      consumed res) s in
      let rd := rd_advance consumed rd in
      match res with
      | inr e =>
          if reupload X (Some e) then Some (set_fg (simple_179 rd sha ct) s)
          else Some (set_fg (Close_setErr e) s)
      | inl f =>
          Some (set_fg Close_256
                  (set_wr (setErr None (set_o_f (Some f) x)) s))
      end
  | simple_179 rd sha ct, RErr e =>
      Some (set_fg (Close_setErr e) (log (EvGetUploadURL (inr e)) s))
  | simple_179 rd sha ct, ROk u =>
      Some (set_fg (simple_175 u rd sha ct) (log (EvGetUploadURL (inl u)) s))
  | Close_setErr e, RNone =>
      Some (set_fg Close_256 (set_wr (setErr (Some e) x) s))
  | Close_247, RNone =>
      match ready x with
      | ChOpen => Some (set_fg Close_248 (set_wr (set_ready ChClosed x) s))
      | _ => Some (set_fg Panicked s)
      end
  | Close_248, RNone =>
      if wg x =? 0 then Some (set_fg Close_249 s) else None
  | Close_249, r =>
      match file x, r with
      | None, RNone => Some (set_fg Panicked s)
      | Some _, RErr e =>
          Some (set_fg (Close_setErr e) (log (EvFinishLargeFile (inr e)) s))
      | Some _, ROk f =>
          Some (set_fg Close_256
                  (set_wr (set_o_f (Some f) x)
                     (log (EvFinishLargeFile (inl f)) s)))
      | _, _ => None
      end
  | Close_256, RNone => Some (give (RetClose (getErr x)) s)
  | _, _ => None
  end.

(** The rendezvous of the send of writer.go:217 with the receive of
    writer.go:108 by worker [j]. *)
Definition send_step (X : Extern) (j : nat) (s : state) : option state :=
  match fg s, ready (wr s), nth_error (workers s) j with
  | sendChunk_216 k, ChOpen, Some (thread_108 fc) =>
      let c := next_chunk X (wr s) in
      Some (sendChunk_done k
              (set_worker j (thread_115 fc c (NewReader (buf c)))
                 (set_wr (after_send (wr s)) (log (EvSend c j) s))))
  | _, _, _ => None
  end.

(** A transition of worker [j]. *)
Definition worker_step (X : Extern) (j : nat) (r : response) (s : state)
    : option state :=
  let x := wr s in
  match nth_error (workers s) j with
  | None => None
  | Some pc =>
      match pc, r with
      | thread_99, RNone =>
          Some (set_worker j thread_100 (set_gid (wrap32 (gid s + 1)) s))
      | thread_100, RErr e =>
          Some (set_worker j (thread_102 e)
                  (log (EvGetUploadPartURL j (inr e)) s))
      | thread_100, ROk fc =>
          Some (set_worker j (thread_105 fc)
                  (log (EvGetUploadPartURL j (inl fc)) s))
      | thread_102 e, RNone =>
          Some (set_worker j thread_exited (set_wr (setErr (Some e) x) s))
      | thread_105 fc, RNone =>
          Some (set_worker j (thread_108 fc) (set_wr (set_wg (wg x + 1) x) s))
      | thread_108 fc, RNone =>
          match ready x with
          | ChClosed => Some (set_worker j thread_Done s)
          | _ => None
          end
      | thread_115 fc c rd, RPart consumed n e =>
          let s := log (EvUploadPart j fc rd (sha1 c) (size c) (id c)
                          consumed n e) s in
          let rd := rd_advance consumed rd in
          if negb (n =? size c) || match e with Some _ => true | None => false end
          then
            if reupload X e then Some (set_worker j (thread_119 c rd) s)
            else Some (set_worker j (thread_setErr e) s)
          else Some (set_worker j (thread_108 fc) s)
      | thread_119 c rd, RErr e =>
          Some (set_worker j (thread_setErr (Some e))
                  (log (EvGetUploadPartURL j (inr e)) s))
      | thread_119 c rd, ROk f =>
          Some (set_worker j (thread_115 f c rd)
                  (log (EvGetUploadPartURL j (inl f)) s))
      | thread_setErr e, RNone =>
          Some (set_worker j thread_Done (set_wr (setErr e x) s))
      | thread_Done, RNone =>
          Some (set_worker j thread_exited (set_wr (set_wg (wg x - 1) x) s))
      | _, _ => None
      end
  end.

(** The context ends from outside: [ctx.Err()] keeps its first value. *)
Definition ctx_step (e : error) (s : state) : option state :=
  match ctx (wr s) with
  | None => Some (set_wr (set_ctx (Some e) (wr s)) s)
  | Some _ => None
  end.

Definition step (X : Extern) (l : label) (s : state) : option state :=
  match l with
  | LFg r => fg_step X r s
  | LSend j => send_step X j s
  | LWorker j r => worker_step X j r s
  | LCtx e => ctx_step e s
  end.

Fixpoint run (X : Extern) (ls : list label) (s : state) : option state :=
  match ls with
  | [] => Some s
  | l :: ls' =>
      match step X l s with
      | Some s' => run X ls' s'
      | None => None
      end
  end.

(** A session: a new Writer and the calls its caller will make. *)
Definition start (x : Writer) (cs : list call) : state :=
  {| wr := x; gid := 0; fg := Idle; calls := cs; rets := [];
     workers := []; trace := [] |}.

(** ** Observations *)

(** [s] is reached from [s0]. *)
Definition reachable (X : Extern) (s0 s : state) : Prop :=
  exists ls, run X ls s0 = Some s.

(** The chunks handed to the workers, in hand-off order. *)
Definition sent (tr : list event) : list chunk :=
  flat_map (fun ev => match ev with EvSend c _ => [c] | _ => [] end) tr.

Definition is_start (ev : event) : bool :=
  match ev with EvStartLargeFile _ _ _ _ => true | _ => false end.

Definition is_part (ev : event) : bool :=
  match ev with EvUploadPart _ _ _ _ _ _ _ _ _ => true | _ => false end.

Definition is_simple (ev : event) : bool :=
  match ev with EvUploadFile _ _ _ _ _ _ _ _ _ => true | _ => false end.

Definition is_finish (ev : event) : bool :=
  match ev with EvFinishLargeFile _ => true | _ => false end.

(** How many events of a kind the trace holds. *)
Definition count (f : event -> bool) (tr : list event) : nat :=
  length (filter f tr).

(** The chunk-size threshold in force: [csize], or 1e8 when it is left at
    zero (writer.go:140-142). *)
Definition threshold (cs : Z) : Z := if cs =? 0 then 100000000 else cs.

(** The calls of a session that writes [ws] in turn and then closes. *)
Definition session (ws : list (list byte)) : list call :=
  map CWrite ws ++ [CClose].

(** The numbers [from], [from + 1], ... as part indices. *)
Fixpoint ids_from (from : Z) (n : nat) : list Z :=
  match n with
  | O => []
  | S n' => from :: ids_from (from + 1) n'
  end.

(** An upload attempt that went through: the callee read all the reader had
    and reported the chunk's size and no error.  Anything but a part upload
    counts as fine. *)
Definition part_ok (ev : event) : Prop :=
  match ev with
  | EvUploadPart _ _ r _ sz _ consumed n e =>
      (length (rd_rest r) <= consumed)%nat /\ n = sz /\ e = None
  | _ => True
  end.

(** The part index and the bytes received for it, per part upload that
    reported the chunk's size and no error. *)
Definition parts (tr : list event) : list (Z * list byte) :=
  flat_map (fun ev =>
    match ev with
    | EvUploadPart _ _ r _ sz pid consumed n None =>
        if n =? sz then [(pid, firstn consumed (rd_rest r))] else []
    | _ => []
    end) tr.

(** The bytes the store holds for part [i]: those of the last upload to
    that index. *)
Fixpoint slot (ps : list (Z * list byte)) (i : Z) : option (list byte) :=
  match ps with
  | [] => None
  | (k, b) :: t =>
      match slot t i with
      | Some b' => Some b'
      | None => if k =? i then Some b else None
      end
  end.

(** The object the store assembles at [finishLargeFile]: parts 1, 2, ...
    as far as they are there (spec, section 4.2: a slot per part index). *)
Fixpoint assemble (ps : list (Z * list byte)) (i : Z) (n : nat) : list byte :=
  match n with
  | O => []
  | S n' =>
      match slot ps i with
      | Some b => b ++ assemble ps (i + 1) n'
      | None => []
      end
  end.

Definition assembled (tr : list event) : list byte :=
  assemble (parts tr) 1 (length (parts tr)).

(** No part upload is logged after a [finishLargeFile]. *)
Fixpoint finish_last (tr : list event) : Prop :=
  match tr with
  | [] => True
  | ev :: t =>
      (is_finish ev = true -> count is_part t = 0%nat) /\ finish_last t
  end.

(** ** The segmentation as the spec words it

    The stream is cut into pieces of exactly the threshold, at consecutive
    multiples of the threshold, and a shorter last piece when bytes remain
    (spec, sections 2 and 4.1). *)
Fixpoint spec_pieces (fuel c : nat) (l : list byte) : list (list byte) :=
  match fuel with
  | O => []
  | S f =>
      match l with
      | [] => []
      | _ => firstn c l :: spec_pieces f c (skipn c l)
      end
  end.

Definition spec_segments (c : Z) (l : list byte) : list (list byte) :=
  spec_pieces (length l) (Z.to_nat c) l.

(** Pieces as chunks: ids from [i] on, each with its length and digest. *)
Fixpoint spec_chunks (X : Extern) (i : Z) (bs : list (list byte)) : list chunk :=
  match bs with
  | [] => []
  | b :: t =>
      {| id := i; size := Z.of_nat (length b); sha1 := sha1_hex X b; buf := b |}
      :: spec_chunks X (i + 1) t
  end.

(** ** Invariants *)

(** The foreground is inside [once.Do], about to call [startLargeFile]. *)
Definition at199 (pc : fg_pc) : bool := match pc with sendChunk_199 _ => true | _ => false end.

(** [startLargeFile] and [once]: the call has been made exactly when [once]
    is set and the foreground has left line 199; [ready] is [nil] until
    then, and nothing is handed over on a [nil] channel. *)
Record inv_start (s : state) : Prop := {
  is_count : count is_start (trace s) = if once (wr s) && negb (at199 (fg s)) then 1%nat else 0%nat;
  is_ready : ready (wr s) = ChNil \/ (once (wr s) = true /\ at199 (fg s) = false);
  is_sent : ready (wr s) = ChNil -> sent (trace s) = [];
  is_199 : at199 (fg s) = true -> once (wr s) = true
}.

(** The size and digest a chunk carries are those of its payload. *)
Definition meta_ok (X : Extern) (c : chunk) : Prop :=
  size c = Z.of_nat (length (buf c)) /\ sha1 c = sha1_hex X (buf c).

(** The chunk counter and the chunks handed over: [cidx] counts them, their
    ids are 1, 2, ..., and the hash has absorbed what the buffer holds. *)
Record inv_ids (X : Extern) (s : state) : Prop := {
  ii_cidx : cidx (wr s) = Z.of_nat (length (sent (trace s)));
  ii_ids : map id (sent (trace s)) = ids_from 1 (length (sent (trace s)));
  ii_meta : Forall (meta_ok X) (sent (trace s));
  ii_hash : chsh (wr s) = cbuf (wr s)
}.

(** A chunk of exactly [c] bytes. *)
Definition full (c : Z) (ch : chunk) : Prop := Z.of_nat (length (buf ch)) = c.

(** [Close] is past its last hand-off. *)
Definition sealed (s : state) : Prop :=
  fg s = Close_247 \/ ready (wr s) = ChClosed \/ fg s = Panicked.

(** What the buffer holds when [sendChunk] runs: the threshold when [Write]
    called it, something when [Close] did. *)
Definition fill_ok (c : Z) (s : state) : Prop :=
  match fg s with
  | sendChunk_199 (KWrite _ _ _) | sendChunk_216 (KWrite _ _ _) =>
      Z.of_nat (length (cbuf (wr s))) = c
  | sendChunk_199 KClose | sendChunk_216 KClose =>
      0 < Z.of_nat (length (cbuf (wr s))) /\ sent (trace s) <> []
  | _ => True
  end.

(** Program points inside [done.Do] of [Close]. *)
Definition closing_pc (pc : fg_pc) : bool :=
  match pc with
  | sendChunk_199 KClose | sendChunk_216 KClose | simple_164
  | simple_175 _ _ _ _ | simple_179 _ _ _ | Close_setErr _ | Close_247
  | Close_248 | Close_249 | Close_256 | Panicked => true
  | _ => false
  end.

(** Sizes: the buffer never exceeds the threshold [c]; every chunk handed
    over is full, but for the last one once [Close] is past its hand-off. *)
Record inv_size (c : Z) (s : state) : Prop := {
  iz_done :
    closing_pc (fg s) = true \/ ready (wr s) = ChClosed -> done (wr s) = true;
  iz_thr : threshold (csize (wr s)) = c;
  iz_len : Z.of_nat (length (cbuf (wr s))) <= c;
  iz_fill : fill_ok c s;
  iz_cut :
    Forall (full c) (sent (trace s)) \/
    (sealed s /\
     exists h l, sent (trace s) = h ++ [l] /\ h <> [] /\ Forall (full c) h /\
                 0 < Z.of_nat (length (buf l)) <= c)
}.

(** Where [Write] is about to read or record an error, one is recorded. *)
Definition err_pc (s : state) : Prop :=
  match fg s with
  | Write_154 _ _ | Write_158 _ _ _ _ => err (wr s) <> None
  | _ => True
  end.

(** The bytes of the calls not yet begun. *)
Definition pending_calls (cs : list call) : list byte :=
  flat_map (fun c => match c with CWrite p => p | CClose => [] end) cs.

(** The bytes of the call in progress that are not yet in the buffer. *)
Definition pending (pc : fg_pc) : list byte :=
  match pc with
  | Write_137 p _ => p
  | sendChunk_199 (KWrite _ rest _) | sendChunk_216 (KWrite _ rest _) => rest
  | _ => []
  end.

(** Calls that are some [Write]s followed by one [Close]. *)
Fixpoint session_like (cs : list call) : bool :=
  match cs with
  | [] => false
  | CWrite _ :: t => session_like t
  | CClose :: t => match t with [] => true | _ => false end
  end.

(** No [Close] has returned. *)
Definition no_close (rs : list ret) : Prop := forall e, ~ In (RetClose e) rs.

(** [Close] has not begun. *)
Definition writing (s : state) : Prop :=
  done (wr s) = false /\ session_like (calls s) = true /\ no_close (rets s).

(** [Close] has begun and has not returned. *)
Definition closing (s : state) : Prop :=
  done (wr s) = true /\ calls s = [] /\ no_close (rets s).

(** Where a session stands, by program point. *)
Definition inv_shape (s : state) : Prop :=
  match fg s with
  | Idle => writing s \/ (done (wr s) = true /\ calls s = [])
  | Write_137 _ _ | Write_149 _ _ _ | Write_153 _ _ _ | Write_154 _ _
  | Write_158 _ _ _ _ | sendChunk_199 (KWrite _ _ _)
  | sendChunk_216 (KWrite _ _ _) => writing s
  | Panicked => no_close (rets s)
  | _ => closing s
  end.

(** No error is recorded, or [Close] has returned [nil]. *)
Definition clean (s : state) : Prop :=
  err (wr s) = None \/ In (RetClose None) (rets s).

(** The input is what has been handed over, what the buffer holds and what
    is still to be written. *)
Definition accounted (inp : list byte) (s : state) : Prop :=
  concat (map buf (sent (trace s))) ++ cbuf (wr s) ++ pending (fg s) ++
  pending_calls (calls s) = inp.

(** Neither [finishLargeFile] nor [uploadFile] has been called. *)
Definition quiet (s : state) : Prop :=
  count is_finish (trace s) = 0%nat /\ count is_simple (trace s) = 0%nat.

(** Between two [Write]s the buffer is below the threshold, and [once] is
    unset while no chunk has been handed over. *)
Definition small (c : Z) (s : state) : Prop :=
  Z.of_nat (length (cbuf (wr s))) < c /\
  (cidx (wr s) = 0 -> once (wr s) = false).

(** The state on the simple path of [Close] (writer.go:237-239). *)
Definition simple_path (c : Z) (s : state) : Prop :=
  cidx (wr s) = 0 /\ Z.of_nat (length (cbuf (wr s))) < c /\
  once (wr s) = false /\ count is_finish (trace s) = 0%nat.

(** The state at the end of [Close]: the simple path, or every byte handed
    over and one [finishLargeFile]. *)
Definition final_ok (c : Z) (s : state) : Prop :=
  simple_path c s \/
  (0 < cidx (wr s) /\ cbuf (wr s) = [] /\
   count is_finish (trace s) = 1%nat /\ count is_simple (trace s) = 0%nat).

(** What holds of the data at each program point of a session. *)
Definition dinv (c : Z) (inp : list byte) (s : state) : Prop :=
  match fg s with
  | Idle =>
      accounted inp s /\
      if done (wr s) then final_ok c s else small c s /\ quiet s
  | Write_137 _ _ => accounted inp s /\ small c s /\ quiet s
  | sendChunk_199 _ | sendChunk_216 _ => accounted inp s /\ quiet s
  | simple_164 | simple_175 _ _ _ _ | simple_179 _ _ _ =>
      accounted inp s /\ simple_path c s
  | Close_247 | Close_248 | Close_249 =>
      accounted inp s /\ cbuf (wr s) = [] /\ 0 < cidx (wr s) /\ quiet s
  | Close_256 => accounted inp s /\ final_ok c s
  | _ => True
  end.

(** ... as long as the session is clean. *)
Definition inv_data (c : Z) (inp : list byte) (s : state) : Prop :=
  clean s -> dinv c inp s.

(** The invariants of every Writer, whatever the calls. *)
Definition inv_base (X : Extern) (c : Z) (s : state) : Prop :=
  inv_start s /\ inv_ids X s /\ inv_size c s /\ err_pc s.

(** The invariants of a session that writes [inp]. *)
Definition inv_session (X : Extern) (c : Z) (inp : list byte) (s : state)
    : Prop :=
  inv_base X c s /\ inv_shape s /\ inv_data c inp s.

(** The chunk a worker holds. *)
Definition held (p : worker_pc) : list chunk :=
  match p with
  | thread_115 _ c _ | thread_119 c _ => [c]
  | _ => []
  end.

(** The chunks held by the workers. *)
Definition inflight (W : list worker_pc) : list chunk := flat_map held W.

(** A worker between its [wg.Add(1)] and its [wg.Done()]. *)
Definition counted (p : worker_pc) : Z :=
  match p with
  | thread_108 _ | thread_115 _ _ _ | thread_119 _ _ | thread_setErr _
  | thread_Done => 1
  | _ => 0
  end.

(** The workers the wait group counts. *)
Definition wg_sum (W : list worker_pc) : Z :=
  fold_right (fun p a => counted p + a) 0 W.

(** A worker about to upload holds a reader that nothing has read from. *)
Definition fresh_pc (p : worker_pc) : Prop :=
  match p with
  | thread_115 _ c r => r = NewReader (buf c)
  | thread_119 _ _ => False
  | _ => True
  end.

(** What the store keeps of a chunk: its part index and its bytes. *)
Definition key (c : chunk) : Z * list byte := (id c, buf c).

(** The workers and the uploads: the wait group counts the workers that
    are between [Add] and [Done]; once [wg.Wait()] has returned no worker
    holds a chunk; as long as every part upload went through, the parts
    uploaded and the chunks still held are the chunks handed over; no part
    is uploaded after [finishLargeFile]. *)
Record inv_up (s : state) : Prop := {
  iu_wg : wg (wr s) = wg_sum (workers s);
  iu_closed : fg s = Close_248 \/ fg s = Close_249 -> ready (wr s) = ChClosed;
  iu_fin :
    fg s = Close_249 \/ count is_finish (trace s) <> 0%nat ->
    ready (wr s) = ChClosed /\ inflight (workers s) = [];
  iu_fresh : Forall part_ok (trace s) -> Forall fresh_pc (workers s);
  iu_perm :
    Forall part_ok (trace s) ->
    Permutation (parts (trace s) ++ map key (inflight (workers s)))
      (map key (sent (trace s)));
  iu_last : finish_last (trace s)
}.

(** The invariants of the workers, whatever the calls. *)
Definition inv_pool (s : state) : Prop := inv_start s /\ inv_up s.


(** [cancel] has been invoked once if an error is recorded and never
    otherwise, and the context is done whenever an error is recorded. *)
Definition inv_cancel (s : state) : Prop :=
  cancel (wr s) = match err (wr s) with Some _ => 1%nat | None => 0%nat end /\
  (err (wr s) <> None -> ctx (wr s) <> None).

(** ** Sample sessions *)

(** A stand-in for what lies outside: as digest the bytes themselves, and a
    policy that retries the error 503 and nothing else. *)
Definition toy_extern : Extern :=
  {| sha1_hex := string_of_list_byte;
     reupload := fun e =>
       match e with Some m => String.eqb m "503" | None => false end |}.

(** The bytes of an ASCII string. *)
Definition bytes_of (s : string) : list byte := list_byte_of_string s.

(** The 25 bytes A..Y. *)
Definition abc : list byte := bytes_of "ABCDEFGHIJKLMNOPQRSTUVWXY".

(** A part upload of [n] bytes that goes through. *)
Definition part_done (n : nat) : response := RPart n (Z.of_nat n) None.

(** Threshold 10, two workers, 25 bytes in one [Write], then [Close]:
    both workers get their upload URL, take the first two chunks and upload
    them; worker 0 takes the third at [Close]. *)
Definition run_25 : list label :=
  [ LFg RNone; LFg RNone; LFg (ROk 7%nat);
    LWorker 0 RNone; LWorker 0 (ROk 100%nat); LWorker 0 RNone;
    LWorker 1 RNone; LWorker 1 (ROk 101%nat); LWorker 1 RNone;
    LSend 0; LFg RNone; LSend 1; LFg RNone;
    LWorker 1 (part_done 10); LWorker 0 (part_done 10);
    LFg RNone; LSend 0; LWorker 0 (part_done 5);
    LFg RNone; LWorker 0 RNone; LWorker 1 RNone; LWorker 0 RNone;
    LWorker 1 RNone;
    LFg RNone; LFg (ROk 9%nat); LFg RNone ].

(** The chunk with id [i] whose payload is [s]. *)
Definition chunk_of (X : Extern) (i : Z) (s : string) : chunk :=
  {| id := i; size := Z.of_nat (length (bytes_of s));
     sha1 := sha1_hex X (bytes_of s); buf := bytes_of s |}.

(** The same upload when the 25 bytes come as 3 and 22: the first
    [Write] only fills the buffer. *)
Definition run_3_22 : list label := [LFg RNone; LFg RNone] ++ run_25.

(** The 10 bytes A..J. *)
Definition a_to_j : list byte := bytes_of "ABCDEFGHIJ".

(** Threshold 10, one worker, exactly 10 bytes, then [Close]. *)
Definition run_10 : list label :=
  [ LFg RNone; LFg RNone; LFg (ROk 7%nat);
    LWorker 0 RNone; LWorker 0 (ROk 100%nat); LWorker 0 RNone;
    LSend 0; LFg RNone; LWorker 0 (part_done 10);
    LFg RNone; LFg RNone; LWorker 0 RNone; LWorker 0 RNone;
    LFg RNone; LFg (ROk 9%nat); LFg RNone ].

(** Threshold 10, one worker, 10 bytes: up to the hand-off of chunk 1 to
    worker 0, which holds the upload URL 100. *)
Definition run_handoff : list label :=
  [ LFg RNone; LFg RNone; LFg (ROk 7%nat);
    LWorker 0 RNone; LWorker 0 (ROk 100%nat); LWorker 0 RNone; LSend 0 ].

(** The upload reads 4 bytes and fails with 503; the worker gets the upload
    URL 101. *)
Definition run_retry : list label :=
  [ LWorker 0 (RPart 4 4 (Some "503"%string)); LWorker 0 (ROk 101%nat) ].

(** The second attempt reads the 6 bytes the reader has left and reports the
    chunk's size; [Write] returns, [Close] runs to its end. *)
Definition run_retry_rest : list label :=
  [ LWorker 0 (RPart 6 10 None); LFg RNone;
    LFg RNone; LFg RNone; LWorker 0 RNone; LWorker 0 RNone;
    LFg RNone; LFg (ROk 9%nat); LFg RNone ].

(** Threshold 10, two workers, 10 bytes.  Worker 0 gets its upload URL,
    takes chunk 1 and uploads it; [Close] closes [ready], worker 0 leaves,
    and [wg.Wait()] returns: worker 1 has not yet run its first
    instruction. *)
Definition run_wait : list label :=
  [ LFg RNone; LFg RNone; LFg (ROk 7%nat);
    LWorker 0 RNone; LWorker 0 (ROk 100%nat); LWorker 0 RNone;
    LSend 0; LFg RNone; LWorker 0 (part_done 10);
    LFg RNone; LFg RNone; LWorker 0 RNone; LWorker 0 RNone; LFg RNone ].

(** [finishLargeFile] succeeds and [Close] returns; then worker 1 runs, and
    its [getUploadPartURL] fails. *)
Definition run_late : list label :=
  [ LFg (ROk 9%nat); LFg RNone;
    LWorker 1 RNone; LWorker 1 (RErr "boom"%string); LWorker 1 RNone ].

(** * Proofs *)

Lemma count_app f a b : count f (a ++ b) = (count f a + count f b)%nat.
Proof. unfold count. rewrite filter_app, length_app. reflexivity. Qed.

Lemma sent_app a b : sent (a ++ b) = sent a ++ sent b.
Proof. unfold sent. apply flat_map_app. Qed.

Lemma Write_return_frame stk k e s :
  wr (Write_return stk k e s) = wr s /\
  gid (Write_return stk k e s) = gid s /\
  calls (Write_return stk k e s) = calls s /\
  workers (Write_return stk k e s) = workers s /\
  trace (Write_return stk k e s) = trace s.
Proof.
  revert k. induction stk as [|i stk IH]; intros k; simpl.
  - repeat split.
  - destruct e as [e'|]; [repeat split | apply IH].
Qed.

Lemma Write_return_wr stk k e s : wr (Write_return stk k e s) = wr s.
Proof. apply Write_return_frame. Qed.

Lemma Write_return_gid stk k e s : gid (Write_return stk k e s) = gid s.
Proof. apply Write_return_frame. Qed.

Lemma Write_return_calls stk k e s : calls (Write_return stk k e s) = calls s.
Proof. apply Write_return_frame. Qed.

Lemma Write_return_workers stk k e s :
  workers (Write_return stk k e s) = workers s.
Proof. apply Write_return_frame. Qed.

Lemma Write_return_trace stk k e s : trace (Write_return stk k e s) = trace s.
Proof. apply Write_return_frame. Qed.

Lemma Write_return_fg stk k e s :
  (exists k', fg (Write_return stk k e s) = Idle /\
              rets (Write_return stk k e s) = rets s ++ [RetWrite k' e]) \/
  (exists i k' e' stk', e = Some e' /\
     fg (Write_return stk k e s) = Write_158 i k' e' stk' /\
     rets (Write_return stk k e s) = rets s).
Proof.
  revert k. induction stk as [|i stk IH]; intros k; simpl.
  - left. now exists k.
  - destruct e as [e'|]; [|apply IH].
    right. now exists i, k, e', stk.
Qed.

Ltac setErr_tac :=
  unfold setErr, do_cancel;
  match goal with |- context [match ?e with Some _ => _ | None => _ end] =>
    destruct e end; try reflexivity;
  match goal with |- context [err ?x] => destruct (err x) end; try reflexivity;
  simpl;
  match goal with |- context [ctx ?x] => destruct (ctx x) end; reflexivity.

Lemma setErr_ConcurrentUploads e x : ConcurrentUploads (setErr e x) = ConcurrentUploads x.
Proof. setErr_tac. Qed.

Lemma setErr_ContentType e x : ContentType (setErr e x) = ContentType x.
Proof. setErr_tac. Qed.

Lemma setErr_Info e x : Info (setErr e x) = Info x.
Proof. setErr_tac. Qed.

Lemma setErr_csize e x : csize (setErr e x) = csize x.
Proof. setErr_tac. Qed.

Lemma setErr_ready e x : ready (setErr e x) = ready x.
Proof. setErr_tac. Qed.

Lemma setErr_wg e x : wg (setErr e x) = wg x.
Proof. setErr_tac. Qed.

Lemma setErr_once e x : once (setErr e x) = once x.
Proof. setErr_tac. Qed.

Lemma setErr_done e x : done (setErr e x) = done x.
Proof. setErr_tac. Qed.

Lemma setErr_file e x : file (setErr e x) = file x.
Proof. setErr_tac. Qed.

Lemma setErr_o_f e x : o_f (setErr e x) = o_f x.
Proof. setErr_tac. Qed.

Lemma setErr_name e x : name (setErr e x) = name x.
Proof. setErr_tac. Qed.

Lemma setErr_cbuf e x : cbuf (setErr e x) = cbuf x.
Proof. setErr_tac. Qed.

Lemma setErr_cidx e x : cidx (setErr e x) = cidx x.
Proof. setErr_tac. Qed.

Lemma setErr_chsh e x : chsh (setErr e x) = chsh x.
Proof. setErr_tac. Qed.

Lemma setErr_err e x :
  err (setErr e x) = match err x with Some e0 => Some e0 | None => e end.
Proof.
  unfold setErr, do_cancel.
  destruct e as [e'|]; destruct (err x) eqn:E; try reflexivity; simpl;
    try (destruct (ctx x); reflexivity).
  now rewrite E.
Qed.

Create Rewrite HintDb wr.

#[local] Hint Rewrite Write_return_wr Write_return_gid Write_return_calls
  Write_return_workers Write_return_trace setErr_err
  setErr_ConcurrentUploads setErr_ContentType setErr_Info setErr_csize setErr_ready setErr_wg setErr_once setErr_done setErr_file setErr_o_f setErr_name setErr_cbuf setErr_cidx setErr_chsh : wr.

Lemma Some_inj {A} (a b : A) : Some a = Some b -> a = b.
Proof. congruence. Qed.

Arguments setErr : simpl never.

Arguments wrap32 : simpl never.

Ltac break_match H :=
  repeat match type of H with
  | context [match ?t with _ => _ end] => destruct t eqn:?
  end.

Ltac step_inv H :=
  match type of H with
  | step _ ?l _ = Some _ => destruct l; simpl in H
  end;
  unfold fg_step, send_step, worker_step, ctx_step in H.

Ltac unfold_steps H :=
  unfold Write_enter, Close_enter, enter_sendChunk, sendChunk_fails,
    sendChunk_done, spawn, w_Write, getErr, set_worker in H.

Ltac cases H :=
  unfold_steps H; simpl in H; break_match H; try discriminate;
  apply Some_inj in H;
  match type of H with _ = ?s' => subst s' end.

Ltac proj :=
  cbn [wr gid fg calls rets workers trace set_fg set_wr set_gid set_calls
       set_workers give log
       ConcurrentUploads ContentType Info csize ctx cancel ready wg once done
       file o_f name cbuf cidx chsh err
       set_ConcurrentUploads set_csize set_ctx set_cancel set_ready set_wg
       set_once set_done set_file set_o_f set_cbuf set_cidx set_chsh set_err
       after_send next_chunk id size sha1 buf at199 closing_pc andb negb orb] in *.

Ltac wret :=
  repeat match goal with
  | |- context [Write_return ?stk ?k ?e ?s] =>
      let Wf := fresh "Wf" in let Wr := fresh "Wr" in
      destruct (Write_return_fg stk k e s)
        as [(? & Wf & Wr) | (? & ? & ? & ? & ?We & Wf & Wr)];
      rewrite ?Wf, ?Wr in *
  end.

Ltac projg :=
  cbn [wr gid fg calls rets workers trace set_fg set_wr set_gid set_calls
       set_workers give log
       ConcurrentUploads ContentType Info csize ctx cancel ready wg once done
       file o_f name cbuf cidx chsh err
       set_ConcurrentUploads set_csize set_ctx set_cancel set_ready set_wg
       set_once set_done set_file set_o_f set_cbuf set_cidx set_chsh set_err
       after_send next_chunk id size sha1 buf at199 closing_pc andb negb orb].

Ltac norm := proj; repeat (progress (projg; autorewrite with wr)).

Ltac fin :=
  first [ assumption | reflexivity | discriminate | congruence | tauto | lia
        | intuition congruence ].

Ltac obs :=
  rewrite ?count_app, ?sent_app;
  cbn [count sent flat_map filter is_start is_part is_simple is_finish
       length app];
  rewrite ?app_nil_r, ?Nat.add_0_r.

Ltac step_cases H :=
  match type of H with
  | step _ _ ?s = Some _ =>
      let x := fresh "x" in let g := fresh "g" in let pc := fresh "pc" in
      let cs := fresh "cs" in let rs := fresh "rs" in
      let W := fresh "W" in let tr := fresh "tr" in
      destruct s as [x g pc cs rs W tr];
      step_inv H; simpl in *;
      [ destruct pc;
        match goal with r : response |- _ => destruct r end;
        try discriminate; cases H
      | cases H
      | match type of H with
        | context [nth_error ?W ?j] =>
            let wpc := fresh "wpc" in
            destruct (nth_error W j) as [wpc|] eqn:?; [|discriminate];
            destruct wpc;
            match goal with r : response |- _ => destruct r end;
            try discriminate; cases H
        end
      | cases H ]
  end.

Lemma inv_start_step X l s s' : inv_start s -> step X l s = Some s' -> inv_start s'.
Proof.
  intros [I1 I2 I3 I4] H.
  step_cases H.
  all: constructor; norm; wret; norm; obs.
  all: try solve [fin].
  all: try solve [destruct (once x); proj; fin].
Qed.

Lemma ids_from_snoc a n :
  ids_from a (S n) = ids_from a n ++ [a + Z.of_nat n].
Proof.
  revert a. induction n as [|n IH]; intros a.
  - simpl. f_equal. lia.
  - change (ids_from a (S (S n))) with (a :: ids_from (a + 1) (S n)).
    rewrite IH. simpl. do 3 f_equal. lia.
Qed.

Ltac zb :=
  repeat match goal with
  | H : (_ <? _) = true |- _ => apply Z.ltb_lt in H
  | H : (_ <? _) = false |- _ => apply Z.ltb_ge in H
  | H : (_ =? _) = true |- _ => apply Z.eqb_eq in H
  | H : (_ =? _) = false |- _ => apply Z.eqb_neq in H
  end.

Lemma inv_ids_step X l s s' :
  inv_ids X s -> step X l s = Some s' -> inv_ids X s'.
Proof.
  intros [I1 I2 I3 I4] H.
  step_cases H.
  all: constructor; norm; wret; norm; obs.
  all: try solve [fin].
  all: rewrite ?length_app, ?map_app; cbn [length map].
  all: try lia.
  all: try (rewrite Nat.add_1_r, ids_from_snoc, I2; proj; do 2 f_equal; lia).
  all: apply Forall_app; split; [assumption|].
  all: repeat constructor; proj; congruence.
Qed.

Ltac lens :=
  rewrite ?length_app, ?length_firstn, ?length_skipn;
  rewrite ?Nat2Z.inj_add, ?Nat2Z.inj_min, ?Nat2Z.inj_sub by lia;
  rewrite ?Z2Nat.id by lia.

Lemma inv_size_step X c l s s' :
  0 < c -> inv_start s -> inv_ids X s -> inv_size c s ->
  step X l s = Some s' -> inv_size c s'.
Proof.
  intros Hc [S1 S2 S3 S4] [I1 I2 I3 I4] [Z0 Z1 Z2 Z3 Z4] H.
  unfold fill_ok, sealed in *.
  step_cases H.
  all: constructor; unfold fill_ok, sealed; norm; wret; norm; obs.
  all: try solve [fin].
  all: zb; unfold threshold in *.
  all: repeat match goal with
       | E : csize ?x = 0 |- _ => rewrite E in *; cbn [Z.eqb] in *
       | E : csize ?x <> 0 |- _ => apply Z.eqb_neq in E; rewrite E in *
       end.
  all: try solve [fin].
  all: try solve [split; [lia | intro E; rewrite E in *; cbn [length] in *; lia]].
  all: try solve [lens; lia].
  - (* a full buffer is handed over by Write *)
    left. destruct Z4 as [Z4 | [[E|[E|E]] _]]; try congruence.
    apply Forall_app; split; [assumption|].
    repeat constructor. unfold full. proj. assumption.
  - (* the last buffer is handed over by Close *)
    right. split; [now left|].
    destruct Z4 as [Z4 | [[E|[E|E]] _]]; try congruence.
    exists (sent tr), (next_chunk X x). proj. intuition lia.
Qed.

Lemma err_pc_step X l s s' : err_pc s -> step X l s = Some s' -> err_pc s'.
Proof.
  intros E H. unfold err_pc in *.
  step_cases H.
  all: norm; wret; norm.
  all: try solve [fin].
  all: try solve [destruct (err x); fin].
  all: destruct pc; try exact I; destruct (err x); fin.
Qed.

Lemma err_mono X l s s' e :
  step X l s = Some s' -> err (wr s) = Some e -> err (wr s') = Some e.
Proof.
  intros H E.
  step_cases H.
  all: norm; try rewrite E; try solve [fin].
Qed.

Lemma no_close_app rs r :
  no_close rs -> (forall e, r <> RetClose e) -> no_close (rs ++ [r]).
Proof.
  intros H Hr e Hin. apply in_app_or in Hin. destruct Hin as [Hin|[Hin|[]]].
  - exact (H e Hin).
  - exact (Hr e Hin).
Qed.

Lemma inv_shape_step X l s s' :
  inv_shape s -> step X l s = Some s' -> inv_shape s'.
Proof.
  intros I H. unfold inv_shape, writing, closing in *.
  step_cases H.
  all: norm; wret; norm.
  all: try solve [fin].
  all: try solve [destruct I as [(_ & Hs & Hn)|(? & ?)]; try discriminate;
                  cbn in Hs; destruct l; try discriminate; auto].
  all: try solve [left; intuition; apply no_close_app; auto; discriminate].
  all: try solve [intuition].
  destruct k; intuition.
Qed.

Lemma clean_back X l s s' : step X l s = Some s' -> clean s' -> clean s.
Proof.
  intros H. unfold clean.
  step_cases H.
  all: norm; wret; norm.
  all: try solve [fin].
  all: try solve [destruct (err x); fin].
  all: intros [C|C]; [left; destruct (err x); fin|].
  all: apply in_app_or in C; destruct C as [C|[C|[]]]; try discriminate;
       try (right; assumption).
  all: try solve [left; destruct (err x); fin].
Qed.

Ltac lists :=
  rewrite ?map_app, ?concat_app; cbn [map concat pending pending_calls flat_map];
  rewrite <- ?app_assoc; cbn [app];
  rewrite ?app_nil_r;
  rewrite ?(app_assoc (firstn _ _) (skipn _ _)), ?firstn_skipn.

Ltac ands :=
  repeat match goal with
  | H : _ /\ _ |- _ => destruct H
  | H : exists _, _ |- _ => destruct H
  end.

Ltac thr :=
  zb; unfold threshold in *;
  repeat match goal with
  | E : csize ?x = 0 |- _ => rewrite E in *; cbn [Z.eqb] in *
  | E : csize ?x <> 0 |- _ => apply Z.eqb_neq in E; rewrite E in *
  end.

Ltac unclean C :=
  exfalso; repeat (progress (autorewrite with wr in C; proj));
  destruct C as [C|C];
  [ repeat match type of C with
           | context [err ?x] => destruct (err x) eqn:?
           end; congruence
  | try (apply in_app_or in C; destruct C as [C|[C|[]]]; [|discriminate]);
    match goal with N : no_close _ |- _ => exact (N _ C) end ].

Lemma length_zero_nil {A} (l : list A) : Z.of_nat (length l) <= 0 -> l = [].
Proof. destruct l; simpl; [reflexivity | lia]. Qed.

Lemma inv_data_step X c inp l s s' :
  0 < c -> inv_start s -> inv_ids X s -> inv_size c s -> err_pc s ->
  inv_shape s -> inv_data c inp s ->
  step X l s = Some s' -> inv_data c inp s'.
Proof.
  intros Hc [S1 S2 S3 S4] [I1 I2 I3 I4] [Z0 Z1 Z2 Z3 Z4] E SH D H C'.
  pose proof (clean_back _ _ _ _ H C') as C.
  specialize (D C). clear C Z0 Z4 I2 I3 S1.
  unfold inv_shape, writing, closing, err_pc, fill_ok, sealed in *.
  unfold dinv, clean, accounted, quiet, small, final_ok, simple_path in *.
  step_cases H.
  all: norm; wret; norm; obs.
  all: try exact I.
  all: try solve [fin].
  all: try (destruct SH as [SH|SH]); ands; try discriminate.
  all: repeat match goal with
       | H : done ?x = _ |- _ => rewrite H in *
       end; ands.
  all: cbn [pending pending_calls flat_map app session_like] in *;
       rewrite ?app_nil_r in *.
  all: lists; thr.
  all: try solve [fin].
  all: try solve [repeat split; solve [fin | lens; lia]].
  all: try solve [unclean C'].
  all: try solve [split; [fin|]; right; repeat split; solve [fin | lia]].
  all: try solve [split; [fin|]; left; repeat split; solve [fin | lia]].
  all: try solve [destruct l; [|discriminate];
                  pose proof (length_zero_nil _ Heqb1);
                  repeat split; solve [fin | lia]].
Qed.

(** *** The invariants hold in every reachable state *)

Lemma threshold_pos cs : 0 <= cs -> 0 < threshold cs.
Proof. unfold threshold. destruct (cs =? 0) eqn:E; zb; lia. Qed.

Lemma inv_base_start X cu ct inf cs nm cl :
  0 <= cs ->
  inv_base X (threshold cs) (start (NewWriter cu ct inf cs nm) cl).
Proof.
  intros Hcs. pose proof (threshold_pos cs Hcs).
  split; [|split; [|split]].
  - constructor; cbn; auto.
  - constructor; cbn; auto.
  - constructor; cbn [start NewWriter wr fg trace ready done csize cbuf].
    + intros [?|?]; discriminate.
    + reflexivity.
    + cbn. lia.
    + exact I.
    + left. constructor.
  - exact I.
Qed.

Lemma inv_base_step X c l s s' :
  0 < c -> inv_base X c s -> step X l s = Some s' -> inv_base X c s'.
Proof.
  intros Hc (A & B & C & D) H. split; [|split; [|split]].
  - eapply inv_start_step; eauto.
  - eapply inv_ids_step; eauto.
  - eapply inv_size_step; eauto.
  - eapply err_pc_step; eauto.
Qed.

Lemma inv_base_run X c ls s s' :
  0 < c -> inv_base X c s -> run X ls s = Some s' -> inv_base X c s'.
Proof.
  intros Hc. revert s. induction ls as [|l ls IH]; intros s I H; simpl in H.
  - now inversion H; subst.
  - destruct (step X l s) as [s1|] eqn:E; [|discriminate].
    eapply IH; [|exact H]. eapply inv_base_step; eauto.
Qed.

Lemma session_like_session ws : session_like (session ws) = true.
Proof. induction ws; simpl; auto. Qed.

Lemma pending_calls_session ws : pending_calls (session ws) = concat ws.
Proof.
  unfold session. induction ws as [|w ws IH]; simpl; [reflexivity|].
  f_equal. exact IH.
Qed.

Lemma inv_session_start X cu ct inf cs nm ws :
  0 <= cs ->
  inv_session X (threshold cs) (concat ws)
    (start (NewWriter cu ct inf cs nm) (session ws)).
Proof.
  intros Hcs. pose proof (threshold_pos cs Hcs).
  split; [now apply inv_base_start|]. split.
  - left. split; [reflexivity|]. split; [apply session_like_session|].
    intros e [].
  - intros _. unfold dinv, accounted, small, quiet. cbn.
    rewrite pending_calls_session. repeat split; auto.
Qed.

Lemma inv_session_step X c inp l s s' :
  0 < c -> inv_session X c inp s -> step X l s = Some s' ->
  inv_session X c inp s'.
Proof.
  intros Hc (B & SH & D) H. pose proof B as (B1 & B2 & B3 & B4).
  split; [|split].
  - eapply inv_base_step; eauto.
  - eapply inv_shape_step; eauto.
  - eapply inv_data_step; eauto.
Qed.

Lemma inv_session_run X c inp ls s s' :
  0 < c -> inv_session X c inp s -> run X ls s = Some s' ->
  inv_session X c inp s'.
Proof.
  intros Hc. revert s. induction ls as [|l ls IH]; intros s I H; simpl in H.
  - now inversion H; subst.
  - destruct (step X l s) as [s1|] eqn:E; [|discriminate].
    eapply IH; [|exact H]. eapply inv_session_step; eauto.
Qed.

(** *** The segmentation of the spec, and chunks in it *)

Lemma spec_pieces_fuel n l f f' :
  (0 < n)%nat -> (length l <= f)%nat -> (length l <= f')%nat ->
  spec_pieces f n l = spec_pieces f' n l.
Proof.
  intros Hn. revert f' l. induction f as [|f IH]; intros f' l H H'.
  - destruct l; [|simpl in H; lia]. destruct f'; reflexivity.
  - destruct l as [|b l]; [destruct f'; reflexivity|].
    destruct f' as [|f']; [simpl in H'; lia|].
    cbn [spec_pieces]. f_equal. apply IH.
    + rewrite length_skipn. cbn [length] in *. lia.
    + rewrite length_skipn. cbn [length] in *. lia.
Qed.

Lemma spec_pieces_full n b rest f :
  (0 < n)%nat -> length b = n -> (length (b ++ rest) <= f)%nat ->
  spec_pieces f n (b ++ rest) = b :: spec_pieces (length rest) n rest.
Proof.
  intros Hn Hb Hf. rewrite length_app in Hf.
  destruct f as [|f]; [lia|].
  destruct b as [|x b']; [cbn [length] in Hb; lia|].
  cbn [app spec_pieces].
  change (x :: b' ++ rest) with ((x :: b') ++ rest).
  rewrite firstn_app, skipn_app, Hb, Nat.sub_diag.
  rewrite firstn_all2, skipn_all2 by lia.
  cbn [firstn skipn]. rewrite app_nil_r. cbn [app].
  f_equal. apply spec_pieces_fuel; lia.
Qed.

Lemma spec_pieces_last n l :
  (0 < length l <= n)%nat -> spec_pieces (length l) n l = [l].
Proof.
  intros H. destruct l as [|x t]; [simpl in H; lia|].
  cbn [length spec_pieces].
  rewrite firstn_all2, skipn_all2 by (simpl in *; lia).
  destruct (length t); reflexivity.
Qed.

Lemma spec_pieces_concat n h tl :
  (0 < n)%nat -> Forall (fun b => length b = n) h ->
  spec_pieces (length (concat h ++ tl)) n (concat h ++ tl) =
  h ++ spec_pieces (length tl) n tl.
Proof.
  intros Hn H. induction H as [|b h Hb _ IH]; [reflexivity|].
  cbn [concat]. rewrite <- app_assoc.
  rewrite spec_pieces_full by auto. cbn [app]. f_equal. exact IH.
Qed.

Lemma segments_of_chunks c (l : list chunk) :
  0 < c ->
  Forall (full c) l \/
  (exists h t, l = h ++ [t] /\ Forall (full c) h /\
               0 < Z.of_nat (length (buf t)) <= c) ->
  spec_segments c (concat (map buf l)) = map buf l.
Proof.
  intros Hc H. unfold spec_segments.
  assert (Hn : (0 < Z.to_nat c)%nat) by lia.
  assert (F : forall h, Forall (full c) h ->
              Forall (fun b => length b = Z.to_nat c) (map buf h)).
  { intros h Fh. induction Fh; constructor; auto. unfold full in *. lia. }
  destruct H as [H | (h & t & -> & H & Ht)].
  - pose proof (spec_pieces_concat _ _ [] Hn (F _ H)) as P.
    rewrite !app_nil_r in P. exact P.
  - rewrite map_app, concat_app. cbn [map concat]. rewrite app_nil_r.
    rewrite spec_pieces_concat by auto.
    rewrite spec_pieces_last by lia. reflexivity.
Qed.

Lemma chunks_of_bufs X (l : list chunk) a :
  map id l = ids_from a (length l) -> Forall (meta_ok X) l ->
  l = spec_chunks X a (map buf l).
Proof.
  revert a. induction l as [|ch l IH]; intros a Hi Hm; [reflexivity|].
  inversion Hm as [|? ? [M1 M2] Hm']; subst.
  cbn [map length ids_from] in Hi. inversion Hi as [[Ha Hi']].
  subst a. cbn [map spec_chunks]. rewrite <- (IH (id ch + 1) Hi' Hm').
  destruct ch as [i sz sh b]; cbn in *. congruence.
Qed.

Lemma spec_segments_nth c l i :
  0 < c ->
  nth i (spec_segments c l) [] =
  firstn (Z.to_nat c) (skipn (i * Z.to_nat c) l).
Proof.
  intros Hc. unfold spec_segments.
  assert (Hn : (0 < Z.to_nat c)%nat) by lia.
  generalize (Z.to_nat c) Hn. clear c Hc Hn. intros n Hn.
  assert (G : forall f l i, (length l <= f)%nat ->
             nth i (spec_pieces f n l) [] = firstn n (skipn (i * n) l)).
  { induction f as [|f IH]; intros l0 i0 Hl.
    - destruct l0; [|simpl in Hl; lia].
      rewrite skipn_nil, firstn_nil. destruct i0; reflexivity.
    - destruct l0 as [|x t].
      + rewrite skipn_nil, firstn_nil. destruct i0; reflexivity.
      + cbn [spec_pieces]. destruct i0 as [|i0]; [reflexivity|].
        cbn [nth]. rewrite IH by (rewrite length_skipn; cbn [length] in *; lia).
        rewrite skipn_skipn. do 2 f_equal. lia. }
  apply G. lia.
Qed.

(** *** What a session that closed without error has done *)

Lemma closed_state s e :
  inv_shape s -> In (RetClose e) (rets s) ->
  fg s = Idle /\ done (wr s) = true /\ calls s = [].
Proof.
  unfold inv_shape, writing, closing, no_close. intros I Hin.
  destruct (fg s) as [| | | | | |k|k| | | | | | | | |];
    try destruct k; intuition; exfalso; eauto.
Qed.

Lemma length_concat_full c (l : list chunk) :
  0 < c -> l <> [] ->
  Forall (full c) l \/
  (exists h t, l = h ++ [t] /\ h <> [] /\ Forall (full c) h /\
               0 < Z.of_nat (length (buf t)) <= c) ->
  c <= Z.of_nat (length (concat (map buf l))).
Proof.
  intros Hc Hl [H | (h & t & -> & Hh & H & _)].
  - destruct H as [|ch l Hch _]; [congruence|].
    cbn [map concat]. rewrite length_app. unfold full in Hch. lia.
  - destruct H as [|ch l Hch _]; [congruence|].
    cbn [map concat app]. rewrite length_app. unfold full in Hch. lia.
Qed.

Lemma session_result X c inp s :
  0 < c -> inv_session X c inp s -> In (RetClose None) (rets s) ->
  (Z.of_nat (length inp) < c /\ sent (trace s) = [] /\ cbuf (wr s) = inp /\
   once (wr s) = false /\ count is_finish (trace s) = 0%nat /\
   count is_start (trace s) = 0%nat) \/
  (c <= Z.of_nat (length inp) /\
   sent (trace s) = spec_chunks X 1 (spec_segments c inp) /\
   cbuf (wr s) = [] /\ count is_finish (trace s) = 1%nat /\
   count is_simple (trace s) = 0%nat /\ count is_start (trace s) = 1%nat).
Proof.
  intros Hc ((S & I & Z & _) & SH & D) Hin.
  destruct (closed_state _ _ SH Hin) as (Hfg & Hdone & Hcalls).
  specialize (D (or_intror Hin)). unfold dinv in D.
  rewrite Hfg, Hdone in D. destruct D as [A F].
  unfold accounted in A. rewrite Hfg, Hcalls in A.
  cbn [pending pending_calls flat_map] in A. rewrite !app_nil_r in A.
  destruct S as [S1 S2 S3 S4]. destruct I as [I1 I2 I3 I4].
  destruct Z as [Z0 Z1 Z2 Z3 Z4]. rewrite Hfg in *. cbn [at199 negb] in *.
  destruct F as [(F1 & F2 & F3 & F4) | (F1 & F2 & F3 & F4)].
  - left. rewrite F1 in I1.
    assert (E : sent (trace s) = []).
    { destruct (sent (trace s)); [reflexivity | cbn [length] in I1; lia]. }
    rewrite E in A. cbn [map concat app] in A. subst inp.
    rewrite F3 in S1. cbn in S1. repeat split; auto.
  - right. rewrite F2, app_nil_r in A.
    assert (N : sent (trace s) <> []).
    { intros E. rewrite E in I1. cbn [length] in I1. lia. }
    assert (Z4' : Forall (full c) (sent (trace s)) \/
              (exists h t, sent (trace s) = h ++ [t] /\ h <> [] /\
                 Forall (full c) h /\ 0 < Z.of_nat (length (buf t)) <= c)).
    { destruct Z4 as [Z4 | (_ & Z4)]; [now left | now right]. }
    split; [rewrite <- A; now apply length_concat_full|].
    split.
    + rewrite <- A. rewrite segments_of_chunks; auto.
      * now apply chunks_of_bufs.
      * destruct Z4' as [?|(h & t & ? & _ & ?)]; [now left|].
        right. now exists h, t.
    + repeat split; auto.
      destruct S2 as [S2 | (S2 & _)]; [now apply S3 in S2|].
      rewrite S2 in S1. exact S1.
Qed.

(** *** The workers: what they hold and what they have uploaded *)

Lemma upd_split W j q :
  nth_error W j = Some q ->
  exists W1 W2, W = W1 ++ q :: W2 /\ forall p, upd j p W = W1 ++ p :: W2.
Proof.
  revert j. induction W as [|h W IH]; intros [|j] H; try discriminate.
  - inversion H; subst. exists [], W. split; reflexivity.
  - destruct (IH j H) as (W1 & W2 & -> & U).
    exists (h :: W1), W2. split; [reflexivity|].
    intros p. cbn [upd app]. now rewrite U.
Qed.

Lemma wg_sum_app W1 W2 : wg_sum (W1 ++ W2) = wg_sum W1 + wg_sum W2.
Proof.
  unfold wg_sum. induction W1 as [|p W1 IH]; cbn [app fold_right]; lia.
Qed.

Lemma wg_sum_nonneg W : 0 <= wg_sum W.
Proof.
  unfold wg_sum. induction W as [|p W IH]; cbn [fold_right]; [lia|].
  destruct p; cbn [counted]; lia.
Qed.

Lemma inflight_app W1 W2 : inflight (W1 ++ W2) = inflight W1 ++ inflight W2.
Proof. apply flat_map_app. Qed.

Lemma wg_sum_zero W : wg_sum W = 0 -> inflight W = [].
Proof.
  induction W as [|p W IH]; [reflexivity|].
  change (wg_sum (p :: W)) with (counted p + wg_sum W).
  pose proof (wg_sum_nonneg W). intros E.
  change (inflight (p :: W)) with (held p ++ inflight W).
  rewrite IH by (destruct p; cbn [counted] in E; lia).
  destruct p; cbn [counted] in E; try lia; reflexivity.
Qed.

Lemma wg_sum_repeat n : wg_sum (repeat thread_99 n) = 0.
Proof. induction n; [reflexivity|]. cbn [repeat]. exact IHn. Qed.

Lemma inflight_repeat n : inflight (repeat thread_99 n) = [].
Proof. induction n; [reflexivity|]. cbn [repeat]. exact IHn. Qed.

Lemma fresh_repeat n : Forall fresh_pc (repeat thread_99 n).
Proof. induction n; constructor; auto. exact I. Qed.

Lemma parts_app a b : parts (a ++ b) = parts a ++ parts b.
Proof. apply flat_map_app. Qed.

Lemma finish_last_snoc tr ev :
  finish_last (tr ++ [ev]) <->
  finish_last tr /\ (is_part ev = true -> count is_finish tr = 0%nat).
Proof.
  induction tr as [|a tr IH].
  - cbn. intuition.
  - cbn [app finish_last]. rewrite IH, count_app.
    unfold count at 2. cbn [filter].
    assert (C : count is_finish (a :: tr) =
                ((if is_finish a then 1 else 0) + count is_finish tr)%nat).
    { unfold count. cbn [filter]. destruct (is_finish a); reflexivity. }
    rewrite C.
    destruct (is_finish a), (is_part ev); cbn [length]; intuition lia.
Qed.

Lemma part_ok_snoc tr ev :
  Forall part_ok (tr ++ [ev]) <-> Forall part_ok tr /\ part_ok ev.
Proof.
  rewrite Forall_app. split; intros [A B]; split; auto.
  now inversion B.
Qed.

Ltac wsplit :=
  try match goal with
  | Hj : nth_error ?W ?j = Some ?q |- _ =>
      let W1 := fresh "W1" in let W2 := fresh "W2" in
      let EW := fresh "EW" in let EU := fresh "EU" in
      destruct (upd_split _ _ _ Hj) as (W1 & W2 & EW & EU);
      subst W; rewrite ?EU; clear EU Hj
  end.

Ltac agg :=
  unfold inflight in *;
  rewrite ?wg_sum_app, ?flat_map_app, ?parts_app, ?wg_sum_repeat,
    ?inflight_repeat, ?map_app in *;
  cbn [wg_sum flat_map fold_right counted held app map parts key
       rd_rest] in *;
  rewrite ?app_nil_r, ?Z.add_0_r in *.

Lemma rd_rest_fresh b k :
  (length b <= k)%nat -> firstn k (rd_rest (NewReader b)) = b.
Proof. intros H. unfold rd_rest, NewReader. cbn. now apply firstn_all2. Qed.

Lemma perm_insert {A} (k : A) P Q R S :
  Permutation (P ++ Q ++ R) S ->
  Permutation (P ++ Q ++ k :: R) (S ++ [k]).
Proof.
  intros H. etransitivity; [|apply Permutation_cons_append].
  etransitivity; [|apply perm_skip; exact H].
  rewrite !app_assoc. symmetry. apply Permutation_middle.
Qed.

Lemma perm_move {A} (k : A) P Q R S :
  Permutation (P ++ Q ++ k :: R) S ->
  Permutation ((P ++ [k]) ++ Q ++ R) S.
Proof.
  intros H. etransitivity; [|exact H].
  rewrite <- !app_assoc. apply Permutation_app_head. cbn [app].
  apply Permutation_middle.
Qed.

(* the worker that moved was fresh, and is fresh where it is now *)
Ltac fresh_tac U4 :=
  let P := fresh "P" in
  intros P; try destruct P as [P ?];
  specialize (U4 P); apply Forall_app in U4;
  let A := fresh "A" in let B := fresh "B" in
  destruct U4 as [A B]; inversion B; subst;
  cbn [fresh_pc part_ok] in *;
  try contradiction;
  try (apply Forall_app; split; [assumption|]; constructor;
       [cbn [fresh_pc next_chunk buf]; auto | assumption]).

Ltac bad_part Heqb :=
  match goal with
  | P : _ /\ _ /\ ?e = None |- _ =>
      destruct P as (? & ? & ?); subst;
      rewrite Z.eqb_refl in Heqb; discriminate
  end.

Lemma inv_up_step X l s s' :
  inv_start s -> inv_up s -> step X l s = Some s' -> inv_up s'.
Proof.
  intros [S1 S2 S3 S4] [U1 U2 U3 U4 U5 U6] H. clear S1 S3.
  step_cases H.
  all: wsplit.
  all: constructor; norm; wret; norm; obs.
  all: rewrite ?finish_last_snoc, ?part_ok_snoc.
  all: agg.
  all: try solve [fin].
  all: try solve [intuition (try discriminate; try lia)].
  all: try solve [intros [? _]; apply Forall_app; split;
                  [auto | apply fresh_repeat]].
  all: try solve [zb; split; [tauto | apply wg_sum_zero; congruence]].
  all: try solve [intros P; destruct (U3 P) as [_ E];
                  apply app_eq_nil in E; destruct E as [_ E]; discriminate].
  all: try solve [split; [assumption|]; intros _;
                  destruct (count is_finish tr) eqn:E; [reflexivity|];
                  exfalso; destruct U3 as [_ U3]; [right; congruence|];
                  apply app_eq_nil in U3; destruct U3 as [_ U3];
                  discriminate].
  all: try solve [fresh_tac U4; try bad_part Heqb; auto].
  all: try solve [intros [P _]; apply perm_insert; auto].
  (* a part upload went through: the chunk moves from held to uploaded *)
  intros [P (H1 & H2 & H3)]. subst e n. rewrite Z.eqb_refl.
  pose proof (U4 P) as F. apply Forall_app in F. destruct F as [_ F].
  inversion F as [|? ? Fr _]; subst. cbn [fresh_pc] in Fr. subst r0.
  rewrite rd_rest_fresh by exact H1.
  change (id c, buf c) with (key c). apply perm_move. auto.
Qed.

Lemma inv_pool_start x cl :
  once x = false -> ready x = ChNil -> wg x = 0 ->
  inv_pool (start x cl).
Proof.
  intros Ho Hr Hw. split; constructor; cbn; rewrite ?Ho, ?Hr; auto;
    try solve [intros [?|?]; discriminate]; try discriminate.
  - intros [?|?]; [discriminate | congruence].
Qed.

Lemma inv_pool_step X l s s' :
  inv_pool s -> step X l s = Some s' -> inv_pool s'.
Proof.
  intros [A B] H. split.
  - eapply inv_start_step; eauto.
  - eapply inv_up_step; eauto.
Qed.

Lemma inv_pool_run X ls s s' :
  inv_pool s -> run X ls s = Some s' -> inv_pool s'.
Proof.
  revert s. induction ls as [|l ls IH]; intros s I H; simpl in H.
  - now inversion H; subst.
  - destruct (step X l s) as [s1|] eqn:E; [|discriminate].
    eapply IH; [|exact H]. eapply inv_pool_step; eauto.
Qed.

(** *** The assembled object *)

Lemma ids_from_range a n x : In x (ids_from a n) -> a <= x < a + Z.of_nat n.
Proof.
  revert a. induction n as [|n IH]; intros a H; [destruct H|].
  cbn [ids_from] in H. destruct H as [<-|H]; [lia|].
  apply IH in H. lia.
Qed.

Lemma ids_from_NoDup a n : NoDup (ids_from a n).
Proof.
  revert a. induction n as [|n IH]; intros a; constructor; auto.
  intros H. apply ids_from_range in H. lia.
Qed.

Lemma slot_none ps i : ~ In i (map fst ps) -> slot ps i = None.
Proof.
  induction ps as [|[k b] ps IH]; intros H; [reflexivity|].
  cbn [slot]. rewrite IH by (intros ?; apply H; now right).
  destruct (k =? i) eqn:E; [|reflexivity].
  exfalso. apply H. left. zb. exact E.
Qed.

Lemma slot_in ps i b :
  NoDup (map fst ps) -> In (i, b) ps -> slot ps i = Some b.
Proof.
  induction ps as [|[k b0] ps IH]; intros N H; [destruct H|].
  cbn [map fst] in N. inversion N as [|? ? N1 N2]; subst.
  cbn [slot]. destruct H as [H|H].
  - inversion H; subst. rewrite slot_none by exact N1.
    now rewrite Z.eqb_refl.
  - now rewrite (IH N2 H).
Qed.

Lemma assemble_chunks ps (l : list chunk) a :
  (forall c, In c l -> slot ps (id c) = Some (buf c)) ->
  map id l = ids_from a (length l) ->
  assemble ps a (length l) = concat (map buf l).
Proof.
  revert a. induction l as [|c l IH]; intros a Hs Hi; [reflexivity|].
  cbn [length ids_from map] in Hi. inversion Hi as [[Ha Hi']].
  subst a. cbn [length assemble map concat].
  rewrite (Hs c (or_introl eq_refl)). f_equal.
  apply IH; [|exact Hi'].
  intros c' Hc'. apply Hs. now right.
Qed.

Lemma assembled_sent tr :
  map id (sent tr) = ids_from 1 (length (sent tr)) ->
  Permutation (parts tr) (map key (sent tr)) ->
  assembled tr = concat (map buf (sent tr)).
Proof.
  intros Hi P. unfold assembled.
  rewrite (Permutation_length P), length_map.
  apply assemble_chunks; [|exact Hi].
  intros c Hc. apply slot_in.
  - apply (Permutation_NoDup (l := map fst (map key (sent tr)))).
    + apply Permutation_map. symmetry. exact P.
    + rewrite map_map. cbn [key fst]. change (map (fun x => id x)) with (map id).
      rewrite Hi. apply ids_from_NoDup.
  - apply (Permutation_in (l := map key (sent tr))); [symmetry; exact P|].
    change (id c, buf c) with (key c). now apply in_map.
Qed.

(** *** The error cell *)

Lemma setErr_cancel e x :
  cancel (setErr e x) =
  match e, err x with
  | Some _, None => S (cancel x)
  | _, _ => cancel x
  end.
Proof.
  unfold setErr, do_cancel.
  destruct e; [destruct (err x)|]; reflexivity.
Qed.

Lemma setErr_ctx e x :
  ctx (setErr e x) =
  match e, err x, ctx x with
  | Some _, None, None => Some Canceled
  | _, _, _ => ctx x
  end.
Proof.
  unfold setErr, do_cancel.
  destruct e; [destruct (err x)|]; cbn; destruct (ctx x) eqn:E; cbn;
    rewrite ?E; reflexivity.
Qed.

Lemma inv_cancel_step X l s s' :
  inv_cancel s -> step X l s = Some s' -> inv_cancel s'.
Proof.
  intros [C1 C2] H. unfold inv_cancel.
  step_cases H.
  all: norm; wret; norm; rewrite ?setErr_cancel, ?setErr_ctx; proj.
  all: try solve [split; assumption].
  all: try solve [destruct (err x), (ctx x); split; try congruence;
                  cbn in *; try lia; intuition congruence].
  all: destruct e, (err x), (ctx x); split; try congruence;
       cbn in *; try lia; intuition congruence.
Qed.

Lemma inv_cancel_run X ls s s' :
  inv_cancel s -> run X ls s = Some s' -> inv_cancel s'.
Proof.
  revert s. induction ls as [|l ls IH]; intros s I H; simpl in H.
  - now inversion H; subst.
  - destruct (step X l s) as [s1|] eqn:E; [|discriminate].
    eapply IH; [|exact H]. eapply inv_cancel_step; eauto.
Qed.

(** ** Theorems *)

Lemma session_inv X cu ct inf cs nm ws ls s :
  0 <= cs ->
  run X ls (start (NewWriter cu ct inf cs nm) (session ws)) = Some s ->
  inv_session X (threshold cs) (concat ws) s /\ inv_pool s.
Proof.
  intros Hcs H. split.
  - eapply inv_session_run; [now apply threshold_pos | | exact H].
    now apply inv_session_start.
  - eapply inv_pool_run; [|exact H]. now apply inv_pool_start.
Qed.

Lemma session_cases X c inp s :
  0 < c -> inv_session X c inp s -> In (RetClose None) (rets s) ->
  (sent (trace s) = [] /\ cbuf (wr s) = inp /\ Z.of_nat (length inp) < c /\
   once (wr s) = false /\ count is_finish (trace s) = 0%nat /\
   count is_start (trace s) = 0%nat) \/
  (sent (trace s) <> [] /\ cbuf (wr s) = [] /\
   concat (map buf (sent (trace s))) = inp /\
   c <= Z.of_nat (length inp) /\
   sent (trace s) = spec_chunks X 1 (spec_segments c inp) /\
   count is_finish (trace s) = 1%nat /\
   count is_simple (trace s) = 0%nat /\ count is_start (trace s) = 1%nat).
Proof.
  intros Hc IS Hin.
  destruct (session_result _ _ _ _ Hc IS Hin)
    as [(L & E & B & R) | (L & E & B & R)]; [left; tauto|].
  right. destruct IS as (_ & SH & D).
  destruct (closed_state _ _ SH Hin) as (Hfg & Hdone & Hcalls).
  specialize (D (or_intror Hin)). unfold dinv in D. rewrite Hfg in D.
  destruct D as [A _]. unfold accounted in A.
  rewrite Hfg, Hcalls, B in A. cbn in A. rewrite app_nil_r in A.
  assert (N : sent (trace s) <> []).
  { intros E0. rewrite E0 in A. cbn in A. subst inp. cbn in L. lia. }
  tauto.
Qed.

Lemma multipart_uploads X c inp s :
  0 < c -> inv_session X c inp s -> inv_pool s -> sent (trace s) <> [] ->
  In (RetClose None) (rets s) ->
  finish_last (trace s) /\
  (Forall part_ok (trace s) ->
   Permutation (parts (trace s)) (map key (sent (trace s))) /\
   assembled (trace s) = inp).
Proof.
  intros Hc IS [_ U] N Hin.
  destruct (session_cases _ _ _ _ Hc IS Hin)
    as [(E & _) | (_ & B & A & _ & _ & F & _)]; [congruence|].
  destruct IS as ((_ & [I1 I2 I3 I4] & _) & _).
  destruct U as [U1 U2 U3 U4 U5 U6].
  destruct U3 as [_ U3]; [right; lia|].
  split; [exact U6|]. intros P.
  specialize (U5 P). rewrite U3 in U5. cbn in U5. rewrite app_nil_r in U5.
  split; [exact U5|]. rewrite <- A. now apply assembled_sent.
Qed.

(** C1.  A session that writes [ws] and closes without error has handed
    over chunks whose ids are 1, 2, ... in hand-off order and whose
    payloads, followed by what is left in the active buffer, are the bytes
    written.  When chunks were handed over the buffer is empty (the last
    buffer was flushed by [Close]), one [finishLargeFile] call was made and no
    part upload follows it; if every part upload went through, the parts
    the store received are those chunks and the assembled object is the
    input.  With threshold 10 and two workers, one [Write] of the 25 bytes
    A..Y gives the chunks A..J, K..T, U..Y with ids 1, 2, 3, one finish
    call, and the assembled object is A..Y. *)
Theorem C1_chunks_reassemble X cu ct inf cs nm ws ls s :
  0 <= cs ->
  run X ls (start (NewWriter cu ct inf cs nm) (session ws)) = Some s ->
  In (RetClose None) (rets s) ->
  map id (sent (trace s)) = ids_from 1 (length (sent (trace s))) /\
  concat (map buf (sent (trace s))) ++ cbuf (wr s) = concat ws /\
  (sent (trace s) <> [] ->
   cbuf (wr s) = [] /\ count is_finish (trace s) = 1%nat /\
   finish_last (trace s) /\
   (Forall part_ok (trace s) ->
    Permutation (parts (trace s)) (map key (sent (trace s))) /\
    assembled (trace s) = concat ws)) /\
  (cu = 2 -> cs = 10 -> ws = [abc] ->
   sent (trace s) =
     [chunk_of X 1 "ABCDEFGHIJ"; chunk_of X 2 "KLMNOPQRST";
      chunk_of X 3 "UVWXY"] /\
   count is_finish (trace s) = 1%nat /\ count is_simple (trace s) = 0%nat /\
   finish_last (trace s) /\
   (Forall part_ok (trace s) ->
    Permutation (parts (trace s))
      [(1, bytes_of "ABCDEFGHIJ"); (2, bytes_of "KLMNOPQRST");
       (3, bytes_of "UVWXY")] /\
    assembled (trace s) = abc)).
Proof.
  intros Hcs H Hin.
  destruct (session_inv _ _ _ _ _ _ _ _ _ Hcs H) as [IS IP].
  pose proof (threshold_pos _ Hcs) as Hc.
  pose proof (session_cases _ _ _ _ Hc IS Hin) as R.
  pose proof (multipart_uploads _ _ _ _ Hc IS IP) as M.
  pose proof IS as ((_ & [I1 I2 I3 I4] & _) & _).
  split; [exact I2|]. split; [|split].
  - destruct R as [(E & B & _) | (_ & B & A & _)].
    + rewrite E, B. reflexivity.
    + rewrite B, app_nil_r. exact A.
  - intros N. destruct R as [(E & _) | (_ & B & _ & _ & _ & F & _)];
      [congruence|].
    destruct (M N Hin) as [M1 M2]. auto.
  - intros -> -> ->.
    destruct R as [(_ & _ & L & _) | (N & _ & _ & _ & E & F & S & _)];
      [cbn in L; lia|].
    destruct (M N Hin) as [M1 M2].
    assert (E' : sent (trace s) =
              [chunk_of X 1 "ABCDEFGHIJ"; chunk_of X 2 "KLMNOPQRST";
               chunk_of X 3 "UVWXY"]) by (rewrite E; reflexivity).
    repeat split; auto.
    + destruct (M2 H0) as [P _]. rewrite E' in P. exact P.
    + destruct (M2 H0) as [_ A]. exact A.
Qed.

Lemma run_25_closes :
  exists s,
    run toy_extern run_25
      (start (NewWriter 2 "" [] 10 "obj") (session [abc])) = Some s /\
    In (RetClose None) (rets s) /\ Forall part_ok (trace s).
Proof.
  eexists. split; [vm_compute; reflexivity|].
  split; [right; left; reflexivity|].
  repeat constructor.
Qed.

Lemma C1_chunks_reassemble_witness :
  exists s,
    run toy_extern run_25
      (start (NewWriter 2 "" [] 10 "obj") (session [abc])) = Some s /\
    In (RetClose None) (rets s) /\
    Forall part_ok (trace s) /\
    sent (trace s) =
      [chunk_of toy_extern 1 "ABCDEFGHIJ"; chunk_of toy_extern 2 "KLMNOPQRST";
       chunk_of toy_extern 3 "UVWXY"] /\
    assembled (trace s) = abc.
Proof.
  destruct run_25_closes as (s & R & C & P).
  exists s. split; [exact R|]. split; [exact C|]. split; [exact P|].
  assert (H : 0 <= 10) by lia.
  destruct (C1_chunks_reassemble toy_extern 2 "" [] 10 "obj" [abc] run_25 s H
              R C)
    as (_ & _ & _ & S).
  destruct (S eq_refl eq_refl eq_refl) as (S1 & _ & _ & _ & S2).
  split; [exact S1|]. apply S2. exact P.
Defined.

(** C10.  Two sessions with the same threshold whose writes concatenate to
    the same bytes, both closed without error, have handed over the same
    chunks (ids, sizes, digests, payloads) and are left with the same
    buffer, however the bytes were split over [Write] calls and whatever the
    schedule, the number of workers and the other options: the chunks are
    the pieces of the input cut at consecutive multiples of the threshold,
    piece [i] being the bytes from [i * threshold] up to the next multiple
    or the end; below the threshold nothing is handed over and the buffer
    holds the input. *)
Theorem C10_chunks_depend_on_bytes X cs cu1 ct1 inf1 nm1 ws1 ls1 s1
    cu2 ct2 inf2 nm2 ws2 ls2 s2 :
  0 <= cs ->
  concat ws1 = concat ws2 ->
  run X ls1 (start (NewWriter cu1 ct1 inf1 cs nm1) (session ws1)) = Some s1 ->
  run X ls2 (start (NewWriter cu2 ct2 inf2 cs nm2) (session ws2)) = Some s2 ->
  In (RetClose None) (rets s1) -> In (RetClose None) (rets s2) ->
  sent (trace s1) = sent (trace s2) /\
  cbuf (wr s1) = cbuf (wr s2) /\
  (Z.of_nat (length (concat ws1)) < threshold cs ->
   sent (trace s1) = [] /\ cbuf (wr s1) = concat ws1) /\
  (threshold cs <= Z.of_nat (length (concat ws1)) ->
   sent (trace s1) =
     spec_chunks X 1 (spec_segments (threshold cs) (concat ws1)) /\
   cbuf (wr s1) = [] /\
   forall i,
     nth i (map buf (sent (trace s1))) [] =
     firstn (Z.to_nat (threshold cs))
       (skipn (i * Z.to_nat (threshold cs)) (concat ws1))).
Proof.
  intros Hcs Hw H1 H2 C1 C2.
  destruct (session_inv _ _ _ _ _ _ _ _ _ Hcs H1) as [IS1 _].
  destruct (session_inv _ _ _ _ _ _ _ _ _ Hcs H2) as [IS2 _].
  pose proof (threshold_pos _ Hcs) as Hc.
  rewrite <- Hw in IS2.
  assert (B : forall bs i, map buf (spec_chunks X i bs) = bs).
  { induction bs as [|b bs IH]; intros i; [reflexivity|].
    cbn [spec_chunks map buf]. now rewrite IH. }
  destruct (session_cases _ _ _ _ Hc IS1 C1)
    as [(E1 & B1 & L1 & _) | (_ & B1 & _ & L1 & E1 & _)];
  destruct (session_cases _ _ _ _ Hc IS2 C2)
    as [(E2 & B2 & L2 & _) | (_ & B2 & _ & L2 & E2 & _)]; try lia.
  - split; [congruence|]. split; [congruence|].
    split; [auto | intros; lia].
  - split; [congruence|]. split; [congruence|].
    split; [intros; lia|]. intros _.
    split; [exact E1|]. split; [exact B1|].
    intros i. rewrite E1, B. now apply spec_segments_nth.
Qed.

Lemma run_3_22_closes :
  exists s,
    run toy_extern run_3_22
      (start (NewWriter 2 "" [] 10 "obj")
         (session [bytes_of "ABC"; bytes_of "DEFGHIJKLMNOPQRSTUVWXY"]))
      = Some s /\
    In (RetClose None) (rets s).
Proof.
  eexists. split; [vm_compute; reflexivity|].
  right; right; left; reflexivity.
Qed.

Lemma C10_chunks_depend_on_bytes_witness :
  exists s1 s2,
    run toy_extern run_25
      (start (NewWriter 2 "" [] 10 "obj") (session [abc])) = Some s1 /\
    run toy_extern run_3_22
      (start (NewWriter 2 "" [] 10 "obj")
         (session [bytes_of "ABC"; bytes_of "DEFGHIJKLMNOPQRSTUVWXY"]))
      = Some s2 /\
    sent (trace s1) = sent (trace s2) /\ cbuf (wr s1) = cbuf (wr s2).
Proof.
  destruct run_25_closes as (s1 & R1 & C1 & _).
  destruct run_3_22_closes as (s2 & R2 & C2).
  exists s1, s2. split; [exact R1|]. split; [exact R2|].
  assert (H : 0 <= 10) by lia.
  destruct (C10_chunks_depend_on_bytes toy_extern 10
              2 "" [] "obj" [abc] run_25 s1
              2 "" [] "obj"
              [bytes_of "ABC"; bytes_of "DEFGHIJKLMNOPQRSTUVWXY"]
              run_3_22 s2 H eq_refl R1 R2 C1 C2)
    as (A & B & _).
  split; [exact A | exact B].
Defined.

(** C4.  In every state a Writer can reach, whatever calls are made: the ids
    of the chunks handed over so far are 1, 2, ..., k in hand-off order,
    [cidx] is k; as long as [Close] has not begun every chunk handed over
    has exactly the threshold's size; a chunk of another size is the last
    one handed over, and its size lies between 1 and the threshold.  In a
    session closed without error whose input reaches the threshold the
    chunks are the pieces of the input, so the trailing bytes are the last
    chunk. *)
Theorem C4_chunk_ids X cu ct inf cs nm cl ls s :
  0 <= cs ->
  run X ls (start (NewWriter cu ct inf cs nm) cl) = Some s ->
  map id (sent (trace s)) = ids_from 1 (length (sent (trace s))) /\
  cidx (wr s) = Z.of_nat (length (sent (trace s))) /\
  (done (wr s) = false ->
   Forall (fun c => size c = threshold cs) (sent (trace s))) /\
  (forall h t, sent (trace s) = h ++ [t] ->
     Forall (fun c => size c = threshold cs) h /\
     0 < size t <= threshold cs) /\
  (forall ws, cl = session ws -> In (RetClose None) (rets s) ->
     threshold cs <= Z.of_nat (length (concat ws)) ->
     sent (trace s) =
       spec_chunks X 1 (spec_segments (threshold cs) (concat ws))).
Proof.
  intros Hcs H. pose proof (threshold_pos _ Hcs) as Hc.
  assert (IB : inv_base X (threshold cs) s).
  { eapply inv_base_run; [exact Hc | | exact H]. now apply inv_base_start. }
  destruct IB as (_ & [I1 I2 I3 I4] & [Z0 Z1 Z2 Z3 Z4] & _).
  assert (F : forall l, Forall (meta_ok X) l -> Forall (full (threshold cs)) l ->
              Forall (fun c => size c = threshold cs) l).
  { intros l M. induction M as [|c l [M1 _] _ IH]; intros Fl;
      inversion Fl; subst; constructor; auto. unfold full in *. lia. }
  split; [exact I2|]. split; [exact I1|]. split; [|split].
  - intros Hd. apply F; [exact I3|].
    destruct Z4 as [Z4 | ([E|[E|E]] & _)]; [exact Z4| | |].
    + rewrite Z0 in Hd; [discriminate | left; now rewrite E].
    + rewrite Z0 in Hd; [discriminate | now right].
    + rewrite Z0 in Hd; [discriminate | left; now rewrite E].
  - intros h t E. rewrite E in I3. apply Forall_app in I3.
    destruct I3 as [Mh Mt]. inversion Mt as [|? ? [Mt1 _] _]; subst.
    destruct Z4 as [Z4 | (_ & h0 & t0 & E0 & _ & Fh & Ft)].
    + rewrite E in Z4. apply Forall_app in Z4. destruct Z4 as [Fh Ft].
      inversion Ft as [|? ? Ft1 _]; subst. unfold full in Ft1.
      split; [now apply F | lia].
    + rewrite E in E0. apply app_inj_tail in E0. destruct E0; subst.
      split; [now apply F | lia].
  - intros ws -> Hin L.
    destruct (session_inv _ _ _ _ _ _ _ _ _ Hcs H) as [IS _].
    destruct (session_cases _ _ _ _ Hc IS Hin) as [(_ & _ & L' & _) | R];
      [lia | tauto].
Qed.

Lemma C4_chunk_ids_witness :
  exists s,
    run toy_extern run_25
      (start (NewWriter 2 "" [] 10 "obj") (session [abc])) = Some s /\
    map id (sent (trace s)) = ids_from 1 (length (sent (trace s))) /\
    cidx (wr s) = Z.of_nat (length (sent (trace s))).
Proof.
  destruct run_25_closes as (s & R & _).
  exists s. split; [exact R|].
  assert (H : 0 <= 10) by lia.
  destruct (C4_chunk_ids toy_extern 2 "" [] 10 "obj" (session [abc]) run_25 s
              H R) as (A & B & _).
  split; [exact A | exact B].
Defined.

Lemma inv_start_run X ls s s' :
  inv_start s -> run X ls s = Some s' -> inv_start s'.
Proof.
  revert s. induction ls as [|l ls IH]; intros s I H; simpl in H.
  - now inversion H; subst.
  - destruct (step X l s) as [s1|] eqn:E; [|discriminate].
    eapply IH; [|exact H]. eapply inv_start_step; eauto.
Qed.

(** C7.  In every state a Writer can reach, whatever the calls, the number
    of workers and the schedule: [startLargeFile] has been called at most
    once; it has been called exactly once as soon as a chunk has been handed
    over, and not at all before [sendChunk] was first entered.  A session
    closed without error whose input reaches the threshold has called it
    exactly once. *)
Theorem C7_start_once X cu ct inf cs nm cl ls s :
  run X ls (start (NewWriter cu ct inf cs nm) cl) = Some s ->
  (count is_start (trace s) <= 1)%nat /\
  (sent (trace s) <> [] -> count is_start (trace s) = 1%nat) /\
  (once (wr s) = false -> count is_start (trace s) = 0%nat) /\
  (forall ws, 0 <= cs -> cl = session ws -> In (RetClose None) (rets s) ->
     threshold cs <= Z.of_nat (length (concat ws)) ->
     count is_start (trace s) = 1%nat).
Proof.
  intros H.
  assert (I : inv_start s).
  { eapply inv_start_run; [|exact H]. constructor; cbn; auto. }
  destruct I as [I1 I2 I3 I4].
  split; [|split; [|split]].
  - rewrite I1. destruct (once (wr s) && negb (at199 (fg s))); lia.
  - intros N. destruct I2 as [I2 | (I2 & I2')]; [now apply I3 in I2|].
    now rewrite I1, I2, I2'.
  - intros O. now rewrite I1, O.
  - intros ws Hcs -> Hin L.
    destruct (session_inv _ _ _ _ _ _ _ _ _ Hcs H) as [IS _].
    destruct (session_cases _ _ _ _ (threshold_pos _ Hcs) IS Hin)
      as [(_ & _ & L' & _) | R]; [lia | tauto].
Qed.

Lemma C7_start_once_witness :
  exists s,
    run toy_extern run_25
      (start (NewWriter 2 "" [] 10 "obj") (session [abc])) = Some s /\
    count is_start (trace s) = 1%nat.
Proof.
  destruct run_25_closes as (s & R & C & _).
  exists s. split; [exact R|].
  destruct (C7_start_once toy_extern 2 "" [] 10 "obj" (session [abc])
              run_25 s R) as (_ & _ & _ & A).
  apply (A [abc]); [lia | reflexivity | exact C | cbn; lia].
Defined.

(** C5.  [setErr(nil)] changes nothing; [setErr] with an error on a Writer
    that holds none records it and invokes [cancel] once, after which the
    context is done; [setErr] on a Writer that holds an error changes
    nothing.  So in every state a Writer can reach, [cancel] has been
    invoked once if an error is recorded and never otherwise, the context
    is done whenever an error is recorded, and a recorded error stays as it
    is through every later transition. *)
Theorem C5_first_error_wins :
  (forall x, setErr None x = x) /\
  (forall e x, err x = None ->
     err (setErr (Some e) x) = Some e /\
     cancel (setErr (Some e) x) = S (cancel x) /\
     ctx (setErr (Some e) x) <> None) /\
  (forall e e0 x, err x = Some e0 -> setErr e x = x) /\
  (forall X cu ct inf cs nm cl ls s,
     run X ls (start (NewWriter cu ct inf cs nm) cl) = Some s ->
     cancel (wr s) =
       match err (wr s) with Some _ => 1%nat | None => 0%nat end /\
     (err (wr s) <> None -> ctx (wr s) <> None) /\
     forall l s' e,
       err (wr s) = Some e -> step X l s = Some s' -> err (wr s') = Some e).
Proof.
  split; [reflexivity|]. split; [|split].
  - intros e x E. rewrite setErr_err, setErr_cancel, setErr_ctx, E.
    repeat split. destruct (ctx x); discriminate.
  - intros e e0 x E. unfold setErr. rewrite E. now destruct e.
  - intros X cu ct inf cs nm cl ls s H.
    assert (I : inv_cancel s).
    { eapply inv_cancel_run; [|exact H]. split; [reflexivity|].
      intros N. now contradiction N. }
    destruct I as [I1 I2]. split; [exact I1|]. split; [exact I2|].
    intros l s' e E S. eapply err_mono; eauto.
Qed.

(** C9.  A [Write] entered while an error is recorded returns 0 and that
    error: the Writer, the trace of backend calls and the workers are as
    before.  From the caller's side: with the error [e] recorded, the call
    [Write(p)] takes the foreground from idle back to idle in two
    transitions and returns [0, e]. *)
Theorem C9_write_after_error X s p e :
  err (wr s) = Some e ->
  (forall stk r s',
     fg s = Write_137 p stk -> fg_step X r s = Some s' ->
     wr s' = wr s /\ trace s' = trace s /\ workers s' = workers s /\
     calls s' = calls s /\
     (stk = [] -> s' = give (RetWrite 0 (Some e)) s)) /\
  (forall cl,
     fg s = Idle -> calls s = CWrite p :: cl ->
     exists s',
       run X [LFg RNone; LFg RNone] s = Some s' /\
       rets s' = rets s ++ [RetWrite 0 (Some e)] /\
       fg s' = Idle /\ calls s' = cl /\
       wr s' = wr s /\ trace s' = trace s /\ workers s' = workers s).
Proof.
  intros E. split.
  - intros stk r s' Hfg H. unfold fg_step in H. rewrite Hfg in H.
    destruct r; try discriminate. apply Some_inj in H. subst s'.
    unfold Write_enter, getErr. rewrite E.
    rewrite Write_return_wr, Write_return_trace, Write_return_workers,
      Write_return_calls.
    repeat split. intros ->. reflexivity.
  - intros cl Hfg Hc. eexists. split.
    + cbn [run step]. unfold fg_step at 1. rewrite Hfg, Hc.
      cbn [fg_step fg set_fg]. unfold Write_enter, getErr.
      cbn [wr set_fg set_calls]. rewrite E. cbn [Write_return]. reflexivity.
    + cbn. repeat split.
Qed.

Lemma C9_write_after_error_witness :
  exists s',
    run toy_extern [LFg RNone; LFg RNone]
      (start (set_err (Some "boom"%string) (NewWriter 2 "" [] 10 "obj"))
         [CWrite abc]) = Some s' /\
    rets s' = [RetWrite 0 (Some "boom"%string)] /\ cbuf (wr s') = [].
Proof.
  destruct (C9_write_after_error toy_extern
              (start (set_err (Some "boom"%string) (NewWriter 2 "" [] 10 "obj"))
                 [CWrite abc]) abc "boom"%string eq_refl) as [_ A].
  destruct (A [] eq_refl eq_refl) as (s' & R & B & _ & _ & C & _).
  exists s'. split; [exact R|]. split; [exact B|]. rewrite C. reflexivity.
Defined.

(** ** Where the code departs from the claims *)

Lemma run_10_closes :
  exists s,
    run toy_extern run_10
      (start (NewWriter 1 "" [] 10 "obj") (session [a_to_j])) = Some s /\
    In (RetClose None) (rets s).
Proof.
  eexists. split; [vm_compute; reflexivity|].
  right; left; reflexivity.
Qed.

(** C2 (the code at the boundary).  A session whose input is exactly as
    long as the threshold, closed without error, has made no simple upload:
    it has started a large file, handed over the whole input as chunk 1 and
    called [finishLargeFile]. *)
Theorem C2_threshold_goes_multipart X cu ct inf cs nm ws ls s :
  0 <= cs ->
  Z.of_nat (length (concat ws)) = threshold cs ->
  run X ls (start (NewWriter cu ct inf cs nm) (session ws)) = Some s ->
  In (RetClose None) (rets s) ->
  count is_simple (trace s) = 0%nat /\
  count is_start (trace s) = 1%nat /\
  count is_finish (trace s) = 1%nat /\
  sent (trace s) = spec_chunks X 1 [concat ws].
Proof.
  intros Hcs L H Hin. pose proof (threshold_pos _ Hcs) as Hc.
  destruct (session_inv _ _ _ _ _ _ _ _ _ Hcs H) as [IS _].
  destruct (session_cases _ _ _ _ Hc IS Hin)
    as [(_ & _ & L' & _) | (_ & _ & _ & _ & E & F & S & T)]; [lia|].
  repeat split; auto.
  rewrite E. unfold spec_segments. rewrite spec_pieces_last; [reflexivity|].
  lia.
Qed.

Lemma C2_threshold_goes_multipart_witness :
  exists s,
    run toy_extern run_10
      (start (NewWriter 1 "" [] 10 "obj") (session [a_to_j])) = Some s /\
    In (RetClose None) (rets s) /\
    count is_simple (trace s) = 0%nat /\
    count is_start (trace s) = 1%nat /\
    count is_finish (trace s) = 1%nat.
Proof.
  destruct run_10_closes as (s & R & C).
  exists s. split; [exact R|]. split; [exact C|].
  assert (H : 0 <= 10) by lia.
  destruct (C2_threshold_goes_multipart toy_extern 1 "" [] 10 "obj"
              [a_to_j] run_10 s H eq_refl R C) as (A & B & D & _).
  auto.
Defined.

Lemma nth_error_upd W j p q :
  nth_error W j = Some q -> nth_error (upd j p W) j = Some p.
Proof.
  revert j. induction W as [|h W IH]; intros [|j] H; try discriminate.
  - reflexivity.
  - cbn [upd nth_error]. now apply IH.
Qed.

Lemma upd_upd W j p q : upd j p (upd j q W) = upd j p W.
Proof.
  revert j. induction W as [|h W IH]; intros [|j]; cbn [upd]; try reflexivity.
  now rewrite IH.
Qed.

(** C3 (the code on a retry).  When a part upload fails in a way the
    policy retries, the worker gets a new upload URL and calls [uploadPart]
    again with the chunk's digest, size and id and with the same reader,
    left where the failed attempt stopped reading: the retry is offered the
    chunk's bytes without the first [k] that the failed attempt read. *)
Theorem C3_retry_resumes_reader X s j fc c r k n e f s' :
  nth_error (workers s) j = Some (thread_115 fc c r) ->
  (negb (n =? size c) || match e with Some _ => true | None => false end)
    = true ->
  reupload X e = true ->
  run X [LWorker j (RPart k n e); LWorker j (ROk f)] s = Some s' ->
  nth_error (workers s') j = Some (thread_115 f c (rd_advance k r)) /\
  rd_rest (rd_advance k r) = skipn k (rd_rest r) /\
  forall k' n' e' s'',
    step X (LWorker j (RPart k' n' e')) s' = Some s'' ->
    trace s'' =
      trace s' ++
      [EvUploadPart j f (rd_advance k r) (sha1 c) (size c) (id c) k' n' e'].
Proof.
  intros Hj Hb Hr H. destruct s as [x g pc cs rs W tr].
  cbn [workers] in Hj.
  destruct (upd_split _ _ _ Hj) as (W1 & W2 & EW & U).
  assert (N : forall p, nth_error (W1 ++ p :: W2) j = Some p).
  { intros p. rewrite <- (U p). now apply (nth_error_upd _ _ _ _ Hj). }
  assert (U' : forall p q, upd j p (W1 ++ q :: W2) = W1 ++ p :: W2).
  { intros p q. now rewrite <- (U q), upd_upd, U. }
  cbn [run step] in H. unfold worker_step in H. cbn [workers] in H.
  rewrite Hj, Hb, Hr in H.
  cbn [set_worker set_workers log workers] in H.
  rewrite U, N in H. apply Some_inj in H. subst s'.
  cbn [set_worker set_workers workers log trace].
  rewrite upd_upd, U. split; [apply N|]. split.
  - unfold rd_rest, rd_advance. cbn [rd_data rd_off].
    destruct (Nat.le_ge_cases (rd_off r + k) (length (rd_data r))) as [L|L].
    + rewrite Nat.min_l by exact L. rewrite skipn_skipn. f_equal. lia.
    + rewrite Nat.min_r by exact L.
      rewrite skipn_all. rewrite skipn_skipn, skipn_all2; [reflexivity|lia].
  - intros k' n' e' s'' H. unfold step, worker_step in H.
    cbn [set_worker set_workers workers log trace] in H.
    rewrite upd_upd, U, N in H.
    destruct (negb (n' =? size c) ||
              match e' with Some _ => true | None => false end);
      [destruct (reupload X e')|]; apply Some_inj in H; subst s'';
      reflexivity.
Qed.


Lemma run_retry_states :
  exists s s' s'',
    run toy_extern run_handoff
      (start (NewWriter 1 "" [] 10 "obj") (session [a_to_j])) = Some s /\
    nth_error (workers s) 0 =
      Some (thread_115 100%nat (chunk_of toy_extern 1 "ABCDEFGHIJ")
              (NewReader a_to_j)) /\
    run toy_extern run_retry s = Some s' /\
    run toy_extern run_retry_rest s' = Some s'' /\
    rets s'' = [RetWrite 10 None; RetClose None] /\
    parts (trace s'') = [(1, bytes_of "EFGHIJ")] /\
    assembled (trace s'') = bytes_of "EFGHIJ".
Proof.
  eexists. eexists. eexists.
  split; [vm_compute; reflexivity|].
  split; [reflexivity|].
  split; [vm_compute; reflexivity|].
  split; [vm_compute; reflexivity|].
  repeat split.
Qed.

Lemma C3_retry_resumes_reader_witness :
  exists s s' s'',
    run toy_extern run_handoff
      (start (NewWriter 1 "" [] 10 "obj") (session [a_to_j])) = Some s /\
    run toy_extern run_retry s = Some s' /\
    nth_error (workers s') 0 =
      Some (thread_115 101%nat (chunk_of toy_extern 1 "ABCDEFGHIJ")
              (rd_advance 4 (NewReader a_to_j))) /\
    rd_rest (rd_advance 4 (NewReader a_to_j)) = bytes_of "EFGHIJ" /\
    run toy_extern run_retry_rest s' = Some s'' /\
    rets s'' = [RetWrite 10 None; RetClose None] /\
    assembled (trace s'') = bytes_of "EFGHIJ".
Proof.
  destruct run_retry_states as (s & s' & s'' & R & W & R' & R'' & A & _ & B).
  exists s, s', s''. split; [exact R|]. split; [exact R'|].
  destruct (C3_retry_resumes_reader toy_extern s 0%nat 100%nat
              (chunk_of toy_extern 1 "ABCDEFGHIJ") (NewReader a_to_j)
              4%nat 4 (Some "503"%string) 101%nat s' W eq_refl eq_refl R')
    as (T1 & T2 & _).
  split; [exact T1|]. split; [exact (eq_trans T2 eq_refl)|].
  split; [exact R''|]. split; [exact A | exact B].
Defined.

Lemma C5_first_error_wins_witness :
  err (setErr (Some "boom"%string) (NewWriter 2 "" [] 10 "obj"))
    = Some "boom"%string /\
  cancel (setErr (Some "boom"%string) (NewWriter 2 "" [] 10 "obj")) = 1%nat /\
  setErr (Some "late"%string)
    (setErr (Some "boom"%string) (NewWriter 2 "" [] 10 "obj"))
    = setErr (Some "boom"%string) (NewWriter 2 "" [] 10 "obj").
Proof.
  destruct C5_first_error_wins as (_ & A & B & _).
  destruct (A "boom"%string (NewWriter 2 "" [] 10 "obj") eq_refl)
    as (A1 & A2 & _).
  split; [exact A1|]. split; [exact A2|].
  exact (B (Some "late"%string) "boom"%string _ A1).
Defined.

(** C8 (the code when a worker starts late).  Threshold 10, two workers,
    one [Write] of 10 bytes, then [Close].  [wg.Wait()] returns and [Close]
    is about to call [finishLargeFile] while worker 1 has not run yet: the
    wait group counts a worker only from its own [wg.Add(1)] on (writer.go:105,
    inside the goroutine, after [getUploadPartURL]).  [finishLargeFile] is
    called with no error recorded and [Close] returns [nil]; worker 1 then
    fails to get its upload URL and records the error. *)
Theorem C8_finish_with_live_worker :
  exists s s',
    run toy_extern run_wait
      (start (NewWriter 2 "" [] 10 "obj") (session [a_to_j])) = Some s /\
    fg s = Close_249 /\ workers s = [thread_exited; thread_99] /\
    wg (wr s) = 0 /\ err (wr s) = None /\
    run toy_extern run_late s = Some s' /\
    count is_finish (trace s') = 1%nat /\
    rets s' = [RetWrite 10 None; RetClose None] /\
    workers s' = [thread_exited; thread_exited] /\
    err (wr s') = Some "boom"%string.
Proof.
  eexists. eexists.
  split; [vm_compute; reflexivity|].
  split; [reflexivity|]. split; [reflexivity|].
  split; [reflexivity|]. split; [reflexivity|].
  split; [vm_compute; reflexivity|].
  repeat split.
Qed.

(** C6 (the code when a worker starts late).  Same schedule, with a second
    [Close]: the first returns [nil]; worker 1 records its error afterwards;
    the second returns that error. *)
Theorem C6_second_close_differs :
  exists s,
    run toy_extern (run_wait ++ run_late ++ [LFg RNone; LFg RNone])
      (start (NewWriter 2 "" [] 10 "obj") [CWrite a_to_j; CClose; CClose])
      = Some s /\
    rets s =
      [RetWrite 10 None; RetClose None; RetClose (Some "boom"%string)] /\
    count is_finish (trace s) = 1%nat /\ fg s = Idle /\ calls s = [].
Proof.
  eexists. split; [vm_compute; reflexivity|]. repeat split.
Qed.
